(** * t8: the translation cache and its coalescing queue

    A shallow embedding of [src/config.ts], [src/cache.ts] and
    [src/batch.ts], with [t8] of [src/index.ts], the mock provider and
    the prompt of the OpenAI and OpenRouter providers.  Module-level
    globals ([config], [memCache], [locks], [queues], [timers]) become
    the fields of one [State]; the file system, [JSON] and [path] are the
    interface [Platform]; promises are cells of a promise heap; closures
    stored in queue items are represented by the promises they settle.

    Modelling boundaries:
    - a [Record<string, string>] is represented by its own enumerable
      properties, in property order; names inherited from
      [Object.prototype] are outside the model;
    - the numeric settings are integers ([NaN] is outside the model);
    - an [async] function runs to completion in one step, except [flush],
      which is split at its first suspension: [flush] is the synchronous
      prefix (it detaches the queue), [flush_body] the rest. *)

From Stdlib Require Import ZArith NArith Ascii DecimalString.
From stdpp Require Import base option strings list gmap sets.

Open Scope string_scope.
Open Scope list_scope.
Open Scope stdpp_scope.

(** ** JavaScript data *)

(** An [Error]: [code] is set by Node's file-system errors only. *)
Record JSError := mkError { err_code : option string; err_message : string }.

#[global] Instance JSError_eq_dec : EqDecision JSError.
Proof. solve_decision. Defined.

(** [new Error(message)] *)
Definition new_Error (message : string) : JSError := mkError None message.

Inductive Result (A : Type) :=
| Ok (a : A)
| Err (e : JSError).
Arguments Ok {A} a.
Arguments Err {A} e.

(** [Record<string, string>]: own properties in property order. *)
Abbreviation JSRecord := (list (string * string)).

(** A property key is an array index when it is the canonical decimal
    form of an integer below [2^32 - 1]; such keys are enumerated first,
    in ascending numeric order. *)
Definition array_index (k : string) : option N :=
  match NilZero.uint_of_string k with
  | Some u =>
      let n := N.of_uint u in
      if bool_decide (NilZero.string_of_uint (N.to_uint n) = k)
         && bool_decide (n < 2 ^ 32 - 1)%N
      then Some n else None
  | None => None
  end.

(** [o[k]] restricted to own properties; [None] is [undefined]. *)
Fixpoint obj_get (o : JSRecord) (k : string) : option string :=
  match o with
  | [] => None
  | (k', v) :: o' => if decide (k' = k) then Some v else obj_get o' k
  end.

Fixpoint own_update (k v : string) (o : JSRecord) : JSRecord :=
  match o with
  | [] => []
  | (k', v') :: o' =>
      if decide (k' = k) then (k', v) :: o' else (k', v') :: own_update k v o'
  end.

Fixpoint insert_index (n : N) (k v : string) (o : JSRecord) : JSRecord :=
  match o with
  | [] => [(k, v)]
  | (k', v') :: o' =>
      match array_index k' with
      | Some n' =>
          if (n' <? n)%N then (k', v') :: insert_index n k v o'
          else (k, v) :: o
      | None => (k, v) :: o
      end
  end.

(** A new own property takes its place in property order. *)
Definition own_insert (k v : string) (o : JSRecord) : JSRecord :=
  match array_index k with
  | Some n => insert_index n k v o
  | None => o ++ [(k, v)]
  end.

(** [o[k] = v] *)
Definition obj_set (o : JSRecord) (k v : string) : JSRecord :=
  match obj_get o k with
  | Some _ => own_update k v o
  | None => own_insert k v o
  end.

(** [Object.entries(o)] *)
Definition Object_entries (o : JSRecord) : list (string * string) := o.

(** [Object.fromEntries(l)] *)
Definition Object_fromEntries (l : list (string * string)) : JSRecord :=
  fold_left (fun o kv => obj_set o kv.1 kv.2) l [].

(** [Object.assign(target, source)] *)
Definition Object_assign (target source : JSRecord) : JSRecord :=
  fold_left (fun o kv => obj_set o kv.1 kv.2) (Object_entries source) target.

(** [{ ...o }] *)
Definition spread (o : JSRecord) : JSRecord :=
  Object_fromEntries (Object_entries o).

(** Truthiness of a string, and of a possibly [undefined] string. *)
Definition truthy (v : string) : bool := negb (bool_decide (v = "")).

Definition truthy_opt (v : option string) : bool :=
  match v with
  | Some v => truthy v
  | None => false
  end.

(** [l.slice(start)] *)
Definition Array_slice {A} (l : list A) (start : Z) : list A :=
  let len := Z.of_nat (length l) in
  let k := if (start <? 0)%Z then Z.max (len + start) 0 else Z.min start len in
  drop (Z.to_nat k) l.

(** [Array.from(new Set(l))]: first occurrences, in order. *)
Definition Array_from_Set (l : list string) : list string :=
  fold_left (fun acc x => if decide (x ∈ acc) then acc else acc ++ [x]) l [].

(** ** config.ts *)

Inductive ProviderName := openai | gemini | openrouter | mock.

Record T8Config := mkConfig {
  provider : ProviderName;
  apiKey : string;
  model : string;
  localesDir : string;
  maxExamples : Z;
  batchSize : Z;
  batchDelay : Z;
}.

Definition defaults : T8Config :=
  {| provider := openai;
     apiKey := "";
     model := "gpt-4o-mini";
     localesDir := "./locales";
     maxExamples := 50;
     batchSize := 25;
     batchDelay := 20 |}.

(** [Partial<T8Config>] *)
Record PartialConfig := mkPartial {
  p_provider : option ProviderName;
  p_apiKey : option string;
  p_model : option string;
  p_localesDir : option string;
  p_maxExamples : option Z;
  p_batchSize : option Z;
  p_batchDelay : option Z;
}.

(** [{ ...config, ...partial }] *)
Definition merge_config (c : T8Config) (p : PartialConfig) : T8Config :=
  {| provider := default (provider c) (p_provider p);
     apiKey := default (apiKey c) (p_apiKey p);
     model := default (model c) (p_model p);
     localesDir := default (localesDir c) (p_localesDir p);
     maxExamples := default (maxExamples c) (p_maxExamples p);
     batchSize := default (batchSize c) (p_batchSize p);
     batchDelay := default (batchDelay c) (p_batchDelay p) |}.

(** ** The platform: [fs], [JSON] and [path] *)

Class Platform := {
  FS : Type;
  (** [fs.readFile(path, 'utf-8')] *)
  fs_readFile : FS → string → Result string;
  (** [fs.mkdir(path, { recursive: true })] *)
  fs_mkdir : FS → string → Result () * FS;
  (** [fs.writeFile(path, content, 'utf-8')] *)
  fs_writeFile : FS → string → string → Result () * FS;
  (** [fs.rename(from, to)] *)
  fs_rename : FS → string → string → Result () * FS;
  (** [JSON.parse(content)]; [inl] carries the [SyntaxError] message. *)
  JSON_parse : string → string + JSRecord;
  (** [JSON.stringify(data, null, 2)] *)
  JSON_stringify : JSRecord → string;
  (** [join(a, b, c)] and [dirname(p)] of [path] *)
  path_join : string → string → string → string;
  path_dirname : string → string;
}.

(** ** Process state *)

Inductive PromiseState :=
| Pending
| Resolved (v : string)
| Rejected (e : JSError).

#[global] Instance PromiseState_eq_dec : EqDecision PromiseState.
Proof. solve_decision. Defined.

(** [interface QueueItem].  The closure [resolve] is represented by the
    promises it resolves, in call order; [reject] by the promise it
    rejects. *)
Record QueueItem := mkItem {
  text : string;
  resolve : list nat;
  reject : nat;
}.

#[global] Instance QueueItem_eq_dec : EqDecision QueueItem.
Proof. solve_decision. Defined.

(** The closure passed to [setTimeout] in [enqueue]. *)
Record Timer := mkTimer {
  t_lang : string;
  t_ctx : string;
  t_delay : Z;
}.

(** A detached queue whose [flush] is suspended at its first [await]:
    the locals of that activation. *)
Record Batch := mkBatch {
  b_lang : string;
  b_ctx : string;
  b_queue : list QueueItem;
  b_uniqueTexts : list string;
  b_config : T8Config;
}.

(** Observable effects, in the order they happen. *)
Inductive Event :=
| EvTranslate (texts : list string) (lang : string) (examples : JSRecord)
| EvPersisted (path : string) (data : JSRecord)
| EvResolve (p : nat) (v : string)
| EvReject (p : nat) (e : JSError).

#[global] Instance Event_eq_dec : EqDecision Event.
Proof. solve_decision. Defined.

Section T8.
Context `{Platform}.

Record State := mkState {
  config : T8Config;                      (* config.ts: let config *)
  memCache : gmap string JSRecord;        (* cache.ts: const memCache *)
  locks : gset string;                    (* cache.ts: const locks (its keys) *)
  disk : FS;
  queues : gmap string (list QueueItem);  (* batch.ts: const queues *)
  timers : gmap string Timer;             (* batch.ts: const timers *)
  promises : list PromiseState;           (* the promises created by enqueue *)
  flushing : list Batch;                  (* suspended activations of flush *)
  trace : list Event;
}.

Definition set_config (f : T8Config → T8Config) (s : State) : State :=
  mkState (f (config s)) (memCache s) (locks s) (disk s) (queues s)
          (timers s) (promises s) (flushing s) (trace s).
Definition set_memCache (f : gmap string JSRecord → gmap string JSRecord)
    (s : State) : State :=
  mkState (config s) (f (memCache s)) (locks s) (disk s) (queues s)
          (timers s) (promises s) (flushing s) (trace s).
Definition set_locks (f : gset string → gset string) (s : State) : State :=
  mkState (config s) (memCache s) (f (locks s)) (disk s) (queues s)
          (timers s) (promises s) (flushing s) (trace s).
Definition set_disk (f : FS → FS) (s : State) : State :=
  mkState (config s) (memCache s) (locks s) (f (disk s)) (queues s)
          (timers s) (promises s) (flushing s) (trace s).
Definition set_queues
    (f : gmap string (list QueueItem) → gmap string (list QueueItem))
    (s : State) : State :=
  mkState (config s) (memCache s) (locks s) (disk s) (f (queues s))
          (timers s) (promises s) (flushing s) (trace s).
Definition set_timers (f : gmap string Timer → gmap string Timer)
    (s : State) : State :=
  mkState (config s) (memCache s) (locks s) (disk s) (queues s)
          (f (timers s)) (promises s) (flushing s) (trace s).
Definition set_promises (f : list PromiseState → list PromiseState)
    (s : State) : State :=
  mkState (config s) (memCache s) (locks s) (disk s) (queues s)
          (timers s) (f (promises s)) (flushing s) (trace s).
Definition set_flushing (f : list Batch → list Batch) (s : State) : State :=
  mkState (config s) (memCache s) (locks s) (disk s) (queues s)
          (timers s) (promises s) (f (flushing s)) (trace s).
Definition emit (e : Event) (s : State) : State :=
  mkState (config s) (memCache s) (locks s) (disk s) (queues s)
          (timers s) (promises s) (flushing s) (trace s ++ [e]).

(** The state of a freshly loaded process. *)
Definition initial (cfg : T8Config) (d : FS) : State :=
  mkState cfg ∅ ∅ d ∅ ∅ [] [] [].

(** [configure(partial)] and [getConfig()] *)
Definition configure (partial : PartialConfig) (s : State) : State :=
  set_config (fun c => merge_config c partial) s.

Definition getConfig (s : State) : T8Config := config s.

(** ** Asynchronous computations

    An [async] function run to completion from a state: it returns,
    throws, or waits for a lock that no step of its own will release. *)
Inductive Completion (A : Type) :=
| Returned (a : A) (s : State)
| Thrown (e : JSError) (s : State)
| Waiting.
Arguments Returned {A} a s.
Arguments Thrown {A} e s.
Arguments Waiting {A}.

Definition Async (A : Type) : Type := State → Completion A.

Definition ret {A} (a : A) : Async A := fun s => Returned a s.

Definition throw {A} (e : JSError) : Async A := fun s => Thrown e s.

Definition bind {A B} (m : Async A) (k : A → Async B) : Async B :=
  fun s =>
    match m s with
    | Returned a s' => k a s'
    | Thrown e s' => Thrown e s'
    | Waiting => Waiting
    end.

(** [try { m } catch (error) { h error }] *)
Definition try_catch {A} (m : Async A) (h : JSError → Async A) : Async A :=
  fun s =>
    match m s with
    | Returned a s' => Returned a s'
    | Thrown e s' => h e s'
    | Waiting => Waiting
    end.

(** [try { m } finally { f }], for a [finally] block that cannot throw. *)
Definition try_finally {A} (m : Async A) (f : State → State) : Async A :=
  fun s =>
    match m s with
    | Returned a s' => Returned a (f s')
    | Thrown e s' => Thrown e (f s')
    | Waiting => Waiting
    end.

Definition modify (f : State → State) : Async () :=
  fun s => Returned () (f s).

End T8.

Arguments Returned {_ A} a s.
Arguments Thrown {_ A} e s.
Arguments Waiting {_ A}.

Notation "'do' x <- m ; k" := (bind m (fun x => k))
  (at level 10, x name, m at level 100, k at level 200,
   format "'[v' 'do'  x  <-  m ; '/' k ']'").
Notation "m ;;; k" := (bind m (fun _ => k))
  (at level 100, k at level 200, right associativity).

(** ** cache.ts *)

Section Cache.
Context `{Platform}.

Definition getCacheKey (lang ctx : string) (s : State) : string :=
  let config := getConfig s in
  localesDir config +:+ ":" +:+ lang +:+ ":" +:+ ctx.

Definition getCachePath (lang ctx : string) (s : State) : string :=
  let config := getConfig s in
  path_join (localesDir config) lang (ctx +:+ ".json").

Definition readFile (path : string) : Async string :=
  fun s =>
    match fs_readFile (disk s) path with
    | Ok content => Returned content s
    | Err e => Thrown e s
    end.

Definition parse (content : string) : Async JSRecord :=
  match JSON_parse content with
  | inr data => ret data
  | inl message => throw (mkError None message)
  end.

(** The [catch] block of [loadCache]. *)
Definition loadCache_catch (key filePath : string) (error : JSError)
    : Async JSRecord :=
  if decide (err_code error = Some "ENOENT") then
    let empty : JSRecord := [] in
    modify (set_memCache <[key := empty]>) ;;; ret empty
  else
    throw (new_Error ("Failed to load cache from " +:+ filePath +:+ ": "
                      +:+ err_message error)).

Definition loadCache (lang ctx : string) : Async JSRecord :=
  fun s =>
    let key := getCacheKey lang ctx s in
    match memCache s !! key with
    | Some data => Returned data s
    | None =>
        let filePath := getCachePath lang ctx s in
        try_catch
          (do content <- readFile filePath;
           do data <- parse content;
           modify (set_memCache <[key := data]>) ;;; ret data)
          (loadCache_catch key filePath) s
    end.

(** The file-system calls of [saveCache], in order: create the
    directory, write the temporary file, rename it over the target. *)
Definition atomic_write (filePath content : string) (d : FS)
    : Result () * FS :=
  let tempPath := filePath +:+ ".tmp" in
  match fs_mkdir d (path_dirname filePath) with
  | (Err e, d1) => (Err e, d1)
  | (Ok _, d1) =>
      match fs_writeFile d1 tempPath content with
      | (Err e, d2) => (Err e, d2)
      | (Ok _, d2) => fs_rename d2 tempPath filePath
      end
  end.

Definition fs_call (op : FS → Result () * FS) : Async () :=
  fun s =>
    match op (disk s) with
    | (Ok _, d) => Returned () (set_disk (fun _ => d) s)
    | (Err e, d) => Thrown e (set_disk (fun _ => d) s)
    end.

Definition saveCache (lang ctx : string) (data : JSRecord) : Async () :=
  fun s =>
    let filePath := getCachePath lang ctx s in
    (fs_call (atomic_write filePath (JSON_stringify data)) ;;;
     modify (emit (EvPersisted filePath data))) s.

(** [withLock(key, fn)].  A held lock belongs to a critical section that
    is suspended; nothing inside this call releases it. *)
Definition withLock {A} (key : string) (fn : Async A) : Async A :=
  fun s =>
    if decide (key ∈ locks s) then Waiting
    else try_finally fn (set_locks (fun l => l ∖ {[key]}))
                     (set_locks (fun l => {[key]} ∪ l) s).

(** [cache[text] || null]; [None] is [null]. *)
Definition getCached (txt lang ctx : string) : Async (option string) :=
  do cache <- loadCache lang ctx;
  ret (let v := obj_get cache txt in if truthy_opt v then v else None).

(** [cache] is the object that [memCache] holds under [key]: the
    assignment is visible there at once. *)
Definition setCached (txt translation lang ctx : string) : Async () :=
  fun s =>
    let key := getCacheKey lang ctx s in
    let lockKey := getCachePath lang ctx s in
    withLock lockKey
      (do cache <- loadCache lang ctx;
       let cache := obj_set cache txt translation in
       modify (set_memCache <[key := cache]>) ;;;
       saveCache lang ctx cache) s.

Definition setCachedBatch (entries : JSRecord) (lang ctx : string)
    : Async () :=
  fun s =>
    let key := getCacheKey lang ctx s in
    let lockKey := getCachePath lang ctx s in
    withLock lockKey
      (do cache <- loadCache lang ctx;
       let cache := Object_assign cache entries in
       modify (set_memCache <[key := cache]>) ;;;
       saveCache lang ctx cache) s.

Definition getAllCached (lang ctx : string) : Async JSRecord :=
  do cache <- loadCache lang ctx;
  ret (spread cache).

End Cache.

(** ** batch.ts *)

Section Batch.
Context `{Platform}.

Definition getQueueKey (lang ctx : string) : string :=
  lang +:+ ":" +:+ ctx.

Definition selectExamples (cache : JSRecord) (maxExamples : Z) : JSRecord :=
  let entries := Object_entries cache in
  if (Z.of_nat (length entries) <=? maxExamples)%Z then cache
  else
    let selected := Array_slice entries (- maxExamples) in
    Object_fromEntries selected.

(** [new Promise(...)]: a fresh pending cell. *)
Definition new_Promise (s : State) : nat * State :=
  (length (promises s), set_promises (fun ps => ps ++ [Pending]) s).

(** Settling a promise that is already settled has no effect. *)
Definition settle (p : nat) (o : PromiseState) (ps : list PromiseState)
    : list PromiseState :=
  match ps !! p with
  | Some Pending => <[p := o]> ps
  | _ => ps
  end.

(** [item.resolve(result)] *)
Definition call_resolve (item : QueueItem) (result : string) (s : State)
    : State :=
  fold_left
    (fun s p => set_promises (settle p (Resolved result))
                             (emit (EvResolve p result) s))
    (resolve item) s.

(** [item.reject(error)] *)
Definition call_reject (item : QueueItem) (error : JSError) (s : State)
    : State :=
  set_promises (settle (reject item) (Rejected error))
               (emit (EvReject (reject item) error) s).

(** [flush], up to its first [await]. *)
Definition flush (lang ctx : string) (s : State) : State :=
  let key := getQueueKey lang ctx in
  match queues s !! key with
  | None | Some [] => s
  | Some queue =>
      let s := set_queues (delete key) s in
      let uniqueTexts := Array_from_Set (map text queue) in
      let config := getConfig s in
      set_flushing (fun bs => bs ++ [mkBatch lang ctx queue uniqueTexts config]) s
  end.

Definition enqueue (txt lang ctx : string) (s : State) : nat * State :=
  let key := getQueueKey lang ctx in
  let '(p, s) := new_Promise s in
  let queue := default [] (queues s !! key) in
  match list_find (fun item => text item = txt) queue with
  | Some (i, existing) =>
      let existing :=
        mkItem (text existing) (resolve existing ++ [p]) (reject existing) in
      (p, set_queues <[key := <[i := existing]> queue]> s)
  | None =>
      let queue := queue ++ [mkItem txt [p] p] in
      let s := set_queues <[key := queue]> s in
      let config := getConfig s in
      if (batchSize config <=? Z.of_nat (length queue))%Z then
        (p, flush lang ctx (set_timers (delete key) s))
      else
        match timers s !! key with
        | None =>
            (p, set_timers <[key := mkTimer lang ctx (batchDelay config)]> s)
        | Some _ => (p, s)
        end
  end.

(** The callback of the timer armed by [enqueue]. *)
Definition timer_fire (key : string) (s : State) : option State :=
  match timers s !! key with
  | Some t => Some (flush (t_lang t) (t_ctx t) (set_timers (delete key) s))
  | None => None
  end.

(** [provider.translate(texts, lang, examples)]: the provider is an
    external service, its settlement [response] is an input of the step. *)
Definition translate (response : Result JSRecord) (texts : list string)
    (lang : string) (examples : JSRecord) : Async JSRecord :=
  fun s =>
    let s := emit (EvTranslate texts lang examples) s in
    match response with
    | Ok translations => Returned translations s
    | Err e => Thrown e s
    end.

(** One iteration of the loop that settles the queue. *)
Definition settle_item (translations : JSRecord) (s : State)
    (item : QueueItem) : State :=
  match obj_get translations (text item) with
  | Some translation =>
      if truthy translation then call_resolve item translation s
      else call_reject item
             (new_Error ("No translation returned for: " +:+ text item)) s
  | None =>
      call_reject item
        (new_Error ("No translation returned for: " +:+ text item)) s
  end.

(** [flush], from its first [await] to its end. *)
Definition flush_body (response : Result JSRecord) (b : Batch) : Async () :=
  let queue := b_queue b in
  try_catch
    (let config := b_config b in
     do allCached <- getAllCached (b_lang b) (b_ctx b);
     let examples := selectExamples allCached (maxExamples config) in
     do translations <-
       translate response (b_uniqueTexts b) (b_lang b) examples;
     setCachedBatch translations (b_lang b) (b_ctx b) ;;;
     modify (fun s => fold_left (settle_item translations) queue s))
    (fun error =>
       modify (fun s => fold_left (fun s item => call_reject item error s)
                                  queue s)).

(** The [i]-th suspended [flush] runs to its end. *)
Definition flush_resume (i : nat) (response : Result JSRecord) (s : State)
    : option State :=
  match flushing s !! i with
  | Some b =>
      match flush_body response b (set_flushing (delete i) s) with
      | Returned _ s' => Some s'
      | Thrown _ _ | Waiting => None
      end
  | None => None
  end.

End Batch.

(** ** A concrete platform

    An in-memory file system that is either writable or read-only, flat
    JSON objects without escapes, and POSIX-style paths.  It instantiates
    [Platform] for concrete executions. *)

Record MemFS := mkMemFS {
  files : gmap string string;
  read_only : bool;
}.

Definition ENOENT (path : string) : JSError :=
  mkError (Some "ENOENT") ("ENOENT: no such file or directory, '" +:+ path +:+ "'").

Definition EACCES (path : string) : JSError :=
  mkError (Some "EACCES") ("EACCES: permission denied, '" +:+ path +:+ "'").

Definition mem_readFile (d : MemFS) (path : string) : Result string :=
  match files d !! path with
  | Some content => Ok content
  | None => Err (ENOENT path)
  end.

Definition mem_mkdir (d : MemFS) (path : string) : Result () * MemFS :=
  if read_only d then (Err (EACCES path), d) else (Ok (), d).

Definition mem_writeFile (d : MemFS) (path content : string)
    : Result () * MemFS :=
  if read_only d then (Err (EACCES path), d)
  else (Ok (), mkMemFS (<[path := content]> (files d)) (read_only d)).

Definition mem_rename (d : MemFS) (from to : string) : Result () * MemFS :=
  if read_only d then (Err (EACCES from), d)
  else
    match files d !! from with
    | Some content =>
        (Ok (), mkMemFS (<[to := content]> (delete from (files d)))
                        (read_only d))
    | None => (Err (ENOENT from), d)
    end.

(** The quotation mark. *)
Definition dquote : Ascii.ascii := Ascii.ascii_of_nat 34.

Definition quoted (s : string) : string :=
  String dquote (s +:+ String dquote EmptyString).

Definition join_with (sep : string) (l : list string) : string :=
  match l with
  | [] => EmptyString
  | x :: l' => fold_left (fun acc y => acc +:+ sep +:+ y) l' x
  end.

Definition flat_stringify (o : JSRecord) : string :=
  "{" +:+ join_with "," (map (fun kv => quoted kv.1 +:+ ":" +:+ quoted kv.2) o)
      +:+ "}".

(** The text up to the closing quotation mark, and what follows it. *)
Fixpoint read_quoted (s : string) : option (string * string) :=
  match s with
  | EmptyString => None
  | String c s' =>
      if decide (c = dquote) then Some (EmptyString, s')
      else
        match read_quoted s' with
        | Some (t, r) => Some (String c t, r)
        | None => None
        end
  end.

Definition expect (c : Ascii.ascii) (s : string) : option string :=
  match s with
  | String c' s' => if decide (c' = c) then Some s' else None
  | EmptyString => None
  end.

Fixpoint read_members (fuel : nat) (s : string) (acc : JSRecord)
    : option JSRecord :=
  match fuel with
  | 0 => None
  | S fuel =>
      s1 ← expect dquote s;
      '(k, s2) ← read_quoted s1;
      s3 ← expect ":"%char s2;
      s4 ← expect dquote s3;
      '(v, s5) ← read_quoted s4;
      match s5 with
      | String c s6 =>
          if decide (c = ","%char) then read_members fuel s6 (obj_set acc k v)
          else if decide (c = "}"%char) then
            match s6 with
            | EmptyString => Some (obj_set acc k v)
            | _ => None
            end
          else None
      | EmptyString => None
      end
  end.

Definition flat_parse (s : string) : string + JSRecord :=
  let failed := "Unexpected token in JSON" in
  match s with
  | String c s' =>
      if decide (c = "{"%char) then
        if decide (s' = "}") then inr []
        else
          match read_members (String.length s') s' [] with
          | Some o => inr o
          | None => inl failed
          end
      else inl failed
  | EmptyString => inl "Unexpected end of JSON input"
  end.

Definition posix_join (a b c : string) : string :=
  a +:+ "/" +:+ b +:+ "/" +:+ c.

(** Everything before the last separator. *)
Fixpoint posix_dirname (p : string) : string :=
  match p with
  | EmptyString => EmptyString
  | String c p' =>
      if bool_decide ("/"%char ∈ String.list_ascii_of_string p') then
        String c (posix_dirname p')
      else EmptyString
  end.

Definition MemPlatform : Platform :=
  {| FS := MemFS;
     fs_readFile := mem_readFile;
     fs_mkdir := mem_mkdir;
     fs_writeFile := mem_writeFile;
     fs_rename := mem_rename;
     JSON_parse := flat_parse;
     JSON_stringify := flat_stringify;
     path_join := posix_join;
     path_dirname := posix_dirname |}.

(** [MockProvider.translate] of [src/providers/]. *)
Definition MockProvider_translate (texts : list string) (lang : string)
    (examples : JSRecord) : JSRecord :=
  fold_left (fun result txt => obj_set result txt ("[" +:+ lang +:+ "] " +:+ txt))
            texts [].

(** ** providers/openai.ts, providers/openrouter.ts *)

(** [l.slice(start, end)] *)
Definition Array_slice_to {A} (l : list A) (start end_ : Z) : list A :=
  let len := Z.of_nat (length l) in
  let k := if (start <? 0)%Z then Z.max (len + start) 0 else Z.min start len in
  let final := if (end_ <? 0)%Z then Z.max (len + end_) 0 else Z.min end_ len in
  take (Z.to_nat (final - k)) (drop (Z.to_nat k) l).

(** The line feed. *)
Definition newline : string := String (Ascii.ascii_of_nat 10) EmptyString.

Section Prompt.
(** [JSON.stringify(texts)] for an array of strings *)
Variable JSON_stringify_texts : list string → string.

(** [buildPrompt] of [OpenAIProvider] and of [OpenRouterProvider]: the
    two methods have the same body. *)
Definition buildPrompt (texts : list string) (lang : string)
    (examples : JSRecord) : string :=
  let prompt :=
    "Translate the following UI strings to " +:+ lang +:+ "." +:+ newline
      +:+ newline in
  let prompt := prompt +:+ "RULES:" +:+ newline in
  let prompt :=
    prompt +:+ "- Preserve placeholders like {name}, {{count}}, %s, %d"
           +:+ newline in
  let prompt := prompt +:+ "- Keep HTML tags unchanged" +:+ newline in
  let prompt :=
    prompt +:+ "- Maintain leading/trailing whitespace" +:+ newline in
  let prompt := prompt +:+ "- Keep the same tone and style" +:+ newline in
  let prompt :=
    prompt
      +:+ "- Return a JSON object mapping each input string to its translation"
      +:+ newline +:+ newline in
  let exampleEntries := Object_entries examples in
  let prompt :=
    if (0 <? Z.of_nat (length exampleEntries))%Z then
      let prompt := prompt +:+ "EXAMPLES (for consistency):" +:+ newline in
      let limitedExamples := Array_slice_to exampleEntries 0 20 in
      let prompt :=
        fold_left
          (fun prompt '(src, trans) =>
             prompt +:+ quoted src +:+ " → " +:+ quoted trans +:+ newline)
          limitedExamples prompt in
      prompt +:+ newline
    else prompt in
  let prompt := prompt +:+ "TRANSLATE:" +:+ newline in
  prompt +:+ JSON_stringify_texts texts.

End Prompt.

(** * Vocabulary of the properties *)

(** ** The cache layer *)

Section CacheSpecs.
Context `{Platform}.

(** The outcome of an asynchronous computation that returned. *)
Definition on_return {A} (c : Completion A) (P : A → State → Prop) : Prop :=
  match c with
  | Returned a s => P a s
  | _ => False
  end.

(** The outcome of an asynchronous computation that threw. *)
Definition on_throw {A} (c : Completion A) (P : JSError → State → Prop)
    : Prop :=
  match c with
  | Thrown e s => P e s
  | _ => False
  end.

(** [n] successive [setCached] calls with the same arguments. *)
Fixpoint put_times (n : nat) (txt translation lang ctx : string) : Async () :=
  match n with
  | 0 => ret ()
  | S n =>
      setCached txt translation lang ctx ;;;
      put_times n txt translation lang ctx
  end.

(** [loadCache] reads [config], [memCache] and the disk only. *)
Definition same_store (s t : State) : Prop :=
  config s = config t ∧ memCache s = memCache t ∧ disk s = disk t.

(** The common shape of [setCached] and [setCachedBatch]: load, update
    the live object, persist, all under the partition's lock. *)
Definition write_through (f : JSRecord → JSRecord) (lang ctx : string)
    : Async () :=
  fun s =>
    let key := getCacheKey lang ctx s in
    let lockKey := getCachePath lang ctx s in
    withLock lockKey
      (do cache <- loadCache lang ctx;
       let cache := f cache in
       modify (set_memCache <[key := cache]>) ;;;
       saveCache lang ctx cache) s.

End CacheSpecs.

(** ** JavaScript objects *)

(** Own properties listed in property order: array indices first, in
    ascending order, then the other keys; no key twice. *)
Definition key_precedes (k k' : string) : Prop :=
  match array_index k, array_index k' with
  | Some n, Some n' => (n < n')%N
  | Some _, None => True
  | None, Some _ => False
  | None, None => True
  end.

Fixpoint ordered_keys (o : JSRecord) : Prop :=
  match o with
  | [] => True
  | (k, _) :: o' =>
      (k ∉ o'.*1) ∧ Forall (fun kv => key_precedes k kv.1) o' ∧ ordered_keys o'
  end.

(** ** The promise heap and the queue *)

(** Promise [p] has not been resolved. *)
Definition not_resolved (ps : list PromiseState) (p : nat) : Prop :=
  ∀ v, ps !! p ≠ Some (Resolved v).

Section BatchSpecs.
Context `{Platform}.

(** The effect of [item.resolve(v)] on the promise heap. *)
Definition resolve_heap (ids : list nat) (v : string)
    (ps : list PromiseState) : list PromiseState :=
  fold_left (fun ps p => settle p (Resolved v) ps) ids ps.

Definition missing_translation (item : QueueItem) : JSError :=
  new_Error ("No translation returned for: " +:+ text item).

(** The effect of [settle_item] on the promise heap. *)
Definition heap_step (translations : JSRecord) (ps : list PromiseState)
    (item : QueueItem) : list PromiseState :=
  match obj_get translations (text item) with
  | Some v =>
      if truthy v then resolve_heap (resolve item) v ps
      else settle (reject item) (Rejected (missing_translation item)) ps
  | None => settle (reject item) (Rejected (missing_translation item)) ps
  end.

(** The events of one iteration of the settling loop. *)
Definition item_events (translations : JSRecord) (item : QueueItem)
    : list Event :=
  match obj_get translations (text item) with
  | Some v =>
      if truthy v then map (fun p => EvResolve p v) (resolve item)
      else [EvReject (reject item) (missing_translation item)]
  | None => [EvReject (reject item) (missing_translation item)]
  end.

(** The [catch] block of [flush]. *)
Definition reject_all (q : list QueueItem) (error : JSError) (s : State)
    : State :=
  fold_left (fun s item => call_reject item error s) q s.

(** The text lists of the generator invocations recorded in a trace. *)
Definition translate_calls (evs : list Event) : list (list string) :=
  flat_map (fun ev => match ev with
                      | EvTranslate texts _ _ => [texts]
                      | _ => []
                      end) evs.

(** Every waiter of the queue is still pending. *)
Definition waiters_pending (q : list QueueItem) (ps : list PromiseState)
    : Prop :=
  Forall (fun item => Forall (fun p => ps !! p = Some Pending) (resolve item)) q.

(** No promise waits on two items, and an item's [reject] belongs to one
    of the callers its [resolve] serves. *)
Definition waiters_disjoint (q : list QueueItem) : Prop :=
  NoDup (concat (map resolve q)) ∧
  Forall (fun item => reject item ∈ resolve item) q.

Definition waiters_ok (ps : list PromiseState) (l : list QueueItem) : Prop :=
  waiters_disjoint l ∧ waiters_pending l ps.

(** The shape of an open queue: one item per text, every waiter pending
    and waiting on one item only. *)
Definition queue_ok (ps : list PromiseState) (q : list QueueItem) : Prop :=
  NoDup (map text q) ∧ waiters_disjoint q ∧ waiters_pending q ps.

(** Promise [p] waits for the translation of [txt] in queue [q]. *)
Definition waits_on (q : list QueueItem) (txt : string) (p : nat) : Prop :=
  ∃ item, item ∈ q ∧ text item = txt ∧ p ∈ resolve item.

(** The number of distinct texts of a queue. *)
Definition distinct_texts (q : list QueueItem) : nat :=
  length (Array_from_Set (map text q)).

(** [n] successive requests for the same text in the same partition. *)
Fixpoint enqueue_times (n : nat) (txt lang ctx : string) (s : State)
    : list nat * State :=
  match n with
  | 0 => ([], s)
  | S n =>
      let '(p, s1) := enqueue txt lang ctx s in
      let '(ps, s2) := enqueue_times n txt lang ctx s1 in
      (p :: ps, s2)
  end.

End BatchSpecs.

(** ** Partitions *)

(** A partition as callers see it; the storage root is the configured
    [localesDir]. *)
Record Partition := mkPartition {
  storage_root : string;
  language : string;
  context : string;
}.

Definition colon_free (s : string) : Prop :=
  ":"%char ∉ String.list_ascii_of_string s.

Section PartitionSpecs.
Context `{Platform}.

Definition use_root (root : string) (s : State) : State :=
  configure (mkPartial None None None (Some root) None None None) s.

(** A request for [txt] in partition [P]. *)
Definition request (P : Partition) (txt : string) (s : State) : nat * State :=
  enqueue txt (language P) (context P) (use_root (storage_root P) s).

End PartitionSpecs.

(** ** Reachable states *)

Section Reachability.
Context `{Platform}.

(** [t8(text, lang, ctx)] of [index.ts], up to the point where it
    returns: the cached value, or the promise made by [enqueue]. *)
Definition t8 (txt lang ctx : string) : Async (string + nat) :=
  do cached <- getCached txt lang ctx;
  match cached with
  | Some v => ret (inl v)
  | None =>
      fun s =>
        let '(p, s') := enqueue txt lang ctx s in Returned (inr p) s'
  end.

(** The items of all open queues, and of all queues, open or detached. *)
Definition open_items (m : gmap string (list QueueItem)) : list QueueItem :=
  map_to_list m ≫= snd.

Definition items (s : State) : list QueueItem :=
  open_items (queues s) ++ (flushing s ≫= b_queue).

(** The invariant of the coalescing queue: over all queues together,
    every waiter is pending and waits on one item; an open queue has one
    item per text. *)
Definition consistent (s : State) : Prop :=
  waiters_ok (promises s) (items s) ∧
  ∀ key q, queues s !! key = Some q → NoDup (map text q).

(** The steps of the process: the exported operations (a failed write
    changes the state too), a timer firing, a suspended flush running to
    its end. *)
Inductive step (s : State) : State → Prop :=
| step_configure partial :
    step s (configure partial s)
| step_getCached txt lang ctx r s' :
    getCached txt lang ctx s = Returned r s' → step s s'
| step_getAllCached lang ctx r s' :
    getAllCached lang ctx s = Returned r s' → step s s'
| step_setCached txt v lang ctx s' :
    setCached txt v lang ctx s = Returned () s' → step s s'
| step_setCached_failed txt v lang ctx e s' :
    setCached txt v lang ctx s = Thrown e s' → step s s'
| step_setCachedBatch entries lang ctx s' :
    setCachedBatch entries lang ctx s = Returned () s' → step s s'
| step_setCachedBatch_failed entries lang ctx e s' :
    setCachedBatch entries lang ctx s = Thrown e s' → step s s'
| step_enqueue txt lang ctx :
    step s (enqueue txt lang ctx s).2
| step_timer key s' :
    timer_fire key s = Some s' → step s s'
| step_flush i response s' :
    flush_resume i response s = Some s' → step s s'.

Inductive reachable : State → Prop :=
| reachable_initial cfg d : reachable (initial cfg d)
| reachable_step s s' : reachable s → step s s' → reachable s'.

End Reachability.

(** ** Outcomes, timers and batches *)

Section RunSpecs.
Context `{Platform}.

(** The call returns or throws, and leaves the process in state [s']. *)
Definition completes_in {A} (c : Completion A) (s' : State) : Prop :=
  match c with
  | Returned _ s0 | Thrown _ s0 => s0 = s'
  | Waiting => False
  end.

(** [cache[text] || null] *)
Definition or_null (cache : JSRecord) (txt : string) : option string :=
  let v := obj_get cache txt in if truthy_opt v then v else None.

(** Every open queue has items and an armed timer; every timer belongs
    to an open queue and flushes the queue of its own key. *)
Definition timers_ok (s : State) : Prop :=
  (∀ key q, queues s !! key = Some q →
            q ≠ [] ∧ is_Some (timers s !! key)) ∧
  (∀ key t, timers s !! key = Some t →
            getQueueKey (t_lang t) (t_ctx t) = key ∧
            is_Some (queues s !! key)).

(** A detached batch is a queue as [flush] found it: not empty, one item
    per text, and the texts for the generator are the texts of its
    items, in order. *)
Definition batch_ok (b : Batch) : Prop :=
  b_queue b ≠ [] ∧ NoDup (map text (b_queue b)) ∧
  b_uniqueTexts b = map text (b_queue b).

Definition scheduled (s : State) : Prop :=
  timers_ok s ∧ Forall batch_ok (flushing s).

(** Every open queue is shorter than the size threshold. *)
Definition below_threshold (s : State) : Prop :=
  ∀ key q, queues s !! key = Some q →
           (Z.of_nat (length q) < batchSize (config s))%Z.

End RunSpecs.

(** ** Concrete states *)

Section ConcreteStates.
#[local] Existing Instance MemPlatform.

Definition fresh : State := initial defaults (mkMemFS ∅ false).
Definition fresh_read_only : State := initial defaults (mkMemFS ∅ true).
Definition fresh_corrupt : State :=
  initial defaults (mkMemFS {[ "./locales/fr/default.json" := "{oops" ]} false).

(** The partition [fr/default] after a cache miss. *)
Definition loaded : State :=
  set_memCache <["./locales:fr:default" := []]> fresh.

(** Two callers have asked for the same text. *)
Definition hello_twice : State :=
  (enqueue "Hello" "fr" "default" (enqueue "Hello" "fr" "default" loaded).2).2.

Definition with_batchSize (n : Z) (s : State) : State :=
  configure (mkPartial None None None None None (Some n) None) s.

(** With threshold 1 a request is flushed at once. *)
Definition hello_flushed : State :=
  (enqueue "Hello" "fr" "default" (with_batchSize 1 fresh)).2.

Definition hello_flushed_read_only : State :=
  (enqueue "Hello" "fr" "default" (with_batchSize 1 fresh_read_only)).2.

(** With threshold 2 the second request flushes both. *)
Definition pair_flushed : State :=
  (enqueue "Bye" "fr" "default"
     (enqueue "Hello" "fr" "default" (with_batchSize 2 fresh)).2).2.

Definition hello_bye_batch : Batch :=
  mkBatch "fr" "default" [mkItem "Hello" [0] 0; mkItem "Bye" [1] 1]
          ["Hello"; "Bye"] (config (with_batchSize 2 fresh)).

Definition unavailable : JSError := new_Error "generator unavailable".

Definition one_two : State :=
  (enqueue "Two" "fr" "default"
     (enqueue "One" "fr" "default" (with_batchSize 3 fresh)).2).2.

Definition fr_default : Partition := mkPartition "./locales" "fr" "default".
Definition fr_marketing : Partition := mkPartition "./locales" "fr" "marketing".
Definition fr_default_elsewhere : Partition :=
  mkPartition "./other" "fr" "default".

End ConcreteStates.

(** ** More concrete states *)

Section MoreConcreteStates.
#[local] Existing Instance MemPlatform.

(** The partition [fr/default] in memory, with one pair. *)
Definition bye_cached : State :=
  set_memCache <["./locales:fr:default" := [("Bye", "Au revoir")]]> fresh.

(** Two partitions in memory. *)
Definition two_partitions : State :=
  set_memCache <["./locales:de:default" := [("Bye", "Auf Wiedersehen")]]>
    bye_cached.

(** A store whose file has been edited by hand. *)
Definition edited_store : MemFS :=
  mkMemFS {[ "./locales/fr/default.json"
             := flat_stringify [("Hello", "Salut")] ]} false.

(** A store that holds the file of [fr/default] and refuses writes. *)
Definition locked_store : MemFS :=
  mkMemFS {[ "./locales/fr/default.json"
             := flat_stringify [("Bye", "Au revoir")] ]} true.

Definition fresh_locked : State := initial defaults locked_store.

Definition hello_batch : Batch :=
  mkBatch "fr" "default" [mkItem "Hello" [0] 0] ["Hello"]
          (config (with_batchSize 1 fresh)).

(** A request flushed at once, on a store whose file is corrupt. *)
Definition hello_flushed_corrupt : State :=
  (enqueue "Hello" "fr" "default" (with_batchSize 1 fresh_corrupt)).2.

Definition cannot_load : JSError :=
  new_Error ("Failed to load cache from ./locales/fr/default.json"
             +:+ ": Unexpected token in JSON").

(** The first caller of an open batch. *)
Definition hello_once : State := (enqueue "Hello" "fr" "default" loaded).2.

(** [JSON.stringify] of an array of strings without escapes. *)
Definition flat_stringify_texts (texts : list string) : string :=
  "[" +:+ join_with "," (map quoted texts) +:+ "]".

Definition three_pairs : JSRecord :=
  [("One", "Un"); ("Two", "Deux"); ("Three", "Trois")].

End MoreConcreteStates.

(** * Properties *)

(** ** JavaScript objects *)

Lemma obj_get_own_update o k v k' :
  obj_get (own_update k v o) k' =
  if decide (k = k') then (fun _ => v) <$> obj_get o k else obj_get o k'.
Proof.
  induction o as [|[k0 v0] o IH]; simpl.
  - by case_decide.
  - destruct (decide (k0 = k)) as [->|Hne]; simpl.
    + destruct (decide (k = k')) as [->|]; simpl; by repeat case_decide.
    + rewrite IH. destruct (decide (k = k')) as [->|]; simpl.
      * destruct (decide (k0 = k')); [congruence|done].
      * done.
Qed.

Lemma obj_get_insert_index n o k v k' :
  obj_get o k = None →
  obj_get (insert_index n k v o) k' =
  if decide (k = k') then Some v else obj_get o k'.
Proof.
  induction o as [|[k0 v0] o IH]; simpl; intros Hk.
  - by case_decide.
  - destruct (decide (k0 = k)) as [->|Hne]; [done|].
    destruct (array_index k0) as [n'|]; [destruct (n' <? n)%N|]; simpl;
      try done.
    rewrite IH by done.
    destruct (decide (k = k')) as [->|]; [|done].
    by destruct (decide (k0 = k')).
Qed.

Lemma obj_get_app o1 o2 k :
  obj_get (o1 ++ o2) k =
  match obj_get o1 k with Some v => Some v | None => obj_get o2 k end.
Proof.
  induction o1 as [|[k0 v0] o1 IH]; simpl; [done|].
  by destruct (decide (k0 = k)).
Qed.

Lemma obj_get_own_insert o k v k' :
  obj_get o k = None →
  obj_get (own_insert k v o) k' =
  if decide (k = k') then Some v else obj_get o k'.
Proof.
  intros Hk. unfold own_insert. destruct (array_index k) as [n|].
  - by apply obj_get_insert_index.
  - rewrite obj_get_app. simpl.
    destruct (decide (k = k')) as [->|]; [by rewrite Hk|].
    by destruct (obj_get o k').
Qed.

(** Reading a property after an assignment. *)
Lemma obj_get_obj_set o k v k' :
  obj_get (obj_set o k v) k' =
  if decide (k = k') then Some v else obj_get o k'.
Proof.
  unfold obj_set. destruct (obj_get o k) as [v0|] eqn:Hk.
  - rewrite obj_get_own_update, Hk. by case_decide.
  - by apply obj_get_own_insert.
Qed.

Lemma obj_get_obj_set_eq o k v : obj_get (obj_set o k v) k = Some v.
Proof. rewrite obj_get_obj_set. by case_decide. Qed.

Lemma obj_get_obj_set_ne o k v k' :
  k ≠ k' → obj_get (obj_set o k v) k' = obj_get o k'.
Proof. intros. rewrite obj_get_obj_set. by case_decide. Qed.

Lemma obj_get_None o k : obj_get o k = None ↔ k ∉ o.*1.
Proof.
  induction o as [|[k0 v0] o IH]; simpl.
  - split; [intros _; apply not_elem_of_nil|done].
  - rewrite not_elem_of_cons. destruct (decide (k0 = k)) as [->|Hne].
    + split; [done|]. intros [? _]. done.
    + rewrite IH. split; [by intros ?|by intros [_ ?]].
Qed.

Lemma obj_get_fold_set_notin (l : list (string * string)) o k :
  k ∉ l.*1 →
  obj_get (fold_left (fun o kv => obj_set o kv.1 kv.2) l o) k = obj_get o k.
Proof.
  revert o. induction l as [|[k0 v0] l IH]; simpl; intros o Hk; [done|].
  apply not_elem_of_cons in Hk as [Hne Hk].
  rewrite IH by done. by apply obj_get_obj_set_ne.
Qed.

(** [Object.assign]: the source wins on every key it has. *)
Lemma obj_get_Object_assign_source target source k v :
  NoDup source.*1 →
  obj_get source k = Some v →
  obj_get (Object_assign target source) k = Some v.
Proof.
  unfold Object_assign, Object_entries. revert target.
  induction source as [|[k0 v0] l IH]; simpl; intros target Hnd Hk; [done|].
  apply NoDup_cons in Hnd as [Hnotin Hnd].
  destruct (decide (k0 = k)) as [->|Hne].
  - injection Hk as ->. rewrite obj_get_fold_set_notin by done.
    apply obj_get_obj_set_eq.
  - by apply IH.
Qed.

Lemma obj_get_Object_assign_target target source k :
  obj_get source k = None →
  obj_get (Object_assign target source) k = obj_get target k.
Proof.
  intros Hk. apply obj_get_fold_set_notin. by apply obj_get_None.
Qed.

(** ** The cache layer *)

Section CacheFacts.
Context `{Platform}.

Ltac unfold_async :=
  unfold bind, ret, throw, try_catch, try_finally, modify in *.

Lemma set_memCache_id (s : State) key cache :
  memCache s !! key = Some cache → set_memCache <[key := cache]> s = s.
Proof.
  intros Hm. destruct s; unfold set_memCache; simpl in *.
  by rewrite insert_id.
Qed.

(** A successful load leaves the partition materialised and changes
    nothing else. *)
Lemma loadCache_returned lang ctx s cache s1 :
  loadCache lang ctx s = Returned cache s1 →
  s1 = set_memCache <[getCacheKey lang ctx s := cache]> s.
Proof.
  unfold loadCache.
  destruct (memCache s !! getCacheKey lang ctx s) as [data|] eqn:Hm.
  - intros [= <- <-]. by rewrite set_memCache_id.
  - unfold readFile, parse, loadCache_catch. unfold_async.
    destruct (fs_readFile _ _) as [content|e].
    + destruct (JSON_parse content) as [msg|data]; simpl.
      * by intros [=].
      * by intros [= <- <-].
    + destruct (decide (err_code e = Some "ENOENT")); [|by intros [=]].
      by intros [= <- <-].
Qed.

Lemma loadCache_hit lang ctx s cache :
  memCache s !! getCacheKey lang ctx s = Some cache →
  loadCache lang ctx s = Returned cache s.
Proof. intros Hm. unfold loadCache. by rewrite Hm. Qed.

(** A failed load changes nothing. *)
Lemma loadCache_thrown lang ctx s e s1 :
  loadCache lang ctx s = Thrown e s1 → s1 = s.
Proof.
  unfold loadCache.
  destruct (memCache s !! getCacheKey lang ctx s) as [data|] eqn:Hm;
    [by intros [=]|].
  unfold readFile, parse, loadCache_catch. unfold_async.
  destruct (fs_readFile _ _) as [content|e0].
  - destruct (JSON_parse content) as [msg|data]; simpl.
    + by intros [= _ <-].
    + by intros [=].
  - destruct (decide (err_code e0 = Some "ENOENT")); [by intros [=]|].
    by intros [= _ <-].
Qed.

Lemma loadCache_not_waiting lang ctx s : loadCache lang ctx s ≠ Waiting.
Proof.
  unfold loadCache.
  destruct (memCache s !! getCacheKey lang ctx s) as [data|]; [done|].
  unfold readFile, parse, loadCache_catch. unfold_async.
  destruct (fs_readFile _ _) as [content|e0].
  - by destruct (JSON_parse content).
  - by destruct (decide (err_code e0 = Some "ENOENT")).
Qed.

Lemma loadCache_frame lang ctx s t g :
  same_store s t →
  (∀ f u, g (set_memCache f u) = set_memCache f (g u)) →
  g s = t →
  loadCache lang ctx t =
  match loadCache lang ctx s with
  | Returned cache s1 => Returned cache (g s1)
  | Thrown e s1 => Thrown e (g s1)
  | Waiting => Waiting
  end.
Proof.
  intros (Hc & Hm & Hd) Hg <-. unfold loadCache, getCacheKey, getCachePath, getConfig.
  rewrite <- Hc, <- Hm.
  destruct (memCache s !! _) as [data|]; [done|].
  unfold readFile, parse, loadCache_catch. unfold_async. rewrite <- Hd.
  destruct (fs_readFile _ _) as [content|e0].
  - destruct (JSON_parse content) as [msg|data]; simpl; [done|].
    by rewrite Hg.
  - destruct (decide (err_code e0 = Some "ENOENT")); [|done].
    by rewrite Hg.
Qed.

Lemma setCached_write_through txt translation lang ctx :
  setCached txt translation lang ctx =
  write_through (fun cache => obj_set cache txt translation) lang ctx.
Proof. reflexivity. Qed.

Lemma setCachedBatch_write_through entries lang ctx :
  setCachedBatch entries lang ctx =
  write_through (fun cache => Object_assign cache entries) lang ctx.
Proof. reflexivity. Qed.

Lemma unlock_lock (s : State) key :
  key ∉ locks s →
  set_locks (fun l => l ∖ {[key]}) (set_locks (fun l => {[key]} ∪ l) s) = s.
Proof.
  intros Hk. destruct s; unfold set_locks; simpl in *. f_equal. set_solver.
Qed.

(** What a write does: a full case analysis. *)
Lemma write_through_cases f lang ctx s :
  write_through f lang ctx s =
  let key := getCacheKey lang ctx s in
  let path := getCachePath lang ctx s in
  if decide (path ∈ locks s) then Waiting
  else
    match loadCache lang ctx s with
    | Returned cache _ =>
        let s2 := set_memCache <[key := f cache]> s in
        match atomic_write path (JSON_stringify (f cache)) (disk s) with
        | (Ok _, d) =>
            Returned () (emit (EvPersisted path (f cache))
                              (set_disk (fun _ => d) s2))
        | (Err e, d) => Thrown e (set_disk (fun _ => d) s2)
        end
    | Thrown e _ => Thrown e s
    | Waiting => Waiting
    end.
Proof.
  unfold write_through, withLock. simpl.
  destruct (decide _) as [|Hlock]; [done|].
  unfold try_finally, bind at 1.
  erewrite (loadCache_frame lang ctx s _
              (set_locks (fun l => {[getCachePath lang ctx s]} ∪ l)));
    [|done|done|done].
  destruct (loadCache lang ctx s) as [cache s1|e s1|] eqn:Hload; [| |done].
  - apply loadCache_returned in Hload as ->.
    unfold saveCache, fs_call. unfold_async. simpl.
    destruct (atomic_write _ _ _) as [[[]|e] d] eqn:Hw; simpl.
    + f_equal. destruct s; unfold set_locks, set_memCache, set_disk, emit;
        simpl in *. f_equal; [by rewrite insert_insert_eq|set_solver].
    + f_equal. destruct s; unfold set_locks, set_memCache, set_disk, emit;
        simpl in *. f_equal; [by rewrite insert_insert_eq|set_solver].
  - apply loadCache_thrown in Hload as ->. f_equal. by apply unlock_lock.
Qed.

Lemma write_through_returned f lang ctx s s' :
  write_through f lang ctx s = Returned () s' →
  ∃ cache d,
    loadCache lang ctx s = Returned cache
      (set_memCache <[getCacheKey lang ctx s := cache]> s) ∧
    atomic_write (getCachePath lang ctx s) (JSON_stringify (f cache)) (disk s)
      = (Ok (), d) ∧
    s' = emit (EvPersisted (getCachePath lang ctx s) (f cache))
           (set_disk (fun _ => d)
              (set_memCache <[getCacheKey lang ctx s := f cache]> s)).
Proof.
  rewrite write_through_cases. simpl.
  destruct (decide _); [done|].
  destruct (loadCache lang ctx s) as [cache s1|e s1|] eqn:Hload; [|done|done].
  pose proof (loadCache_returned _ _ _ _ _ Hload) as ->.
  destruct (atomic_write _ _ _) as [[[]|e] d] eqn:Hw; [|done].
  intros [= <-]. by exists cache, d.
Qed.

(** After a successful write the partition is in memory, updated. *)
Lemma write_through_memCache f lang ctx s s' :
  write_through f lang ctx s = Returned () s' →
  ∃ cache, memCache s' !! getCacheKey lang ctx s' = Some (f cache).
Proof.
  intros (cache & d & _ & _ & ->)%write_through_returned.
  exists cache. unfold getCacheKey, getConfig. simpl.
  apply lookup_insert_eq.
Qed.


(** C2 (as amended). When the durable write of [put] or [putBatch]
    fails, the caller receives that error, and the in-memory partition
    already holds the upsert: memory is updated before the write. *)
Theorem write_failure_keeps_upsert lang ctx s cache s1 e d :
  getCachePath lang ctx s ∉ locks s →
  loadCache lang ctx s = Returned cache s1 →
  (∀ txt v,
     atomic_write (getCachePath lang ctx s)
       (JSON_stringify (obj_set cache txt v)) (disk s) = (Err e, d) →
     ∃ s', setCached txt v lang ctx s = Thrown e s' ∧
           memCache s' !! getCacheKey lang ctx s = Some (obj_set cache txt v) ∧
           disk s' = d ∧ locks s' = locks s)
  ∧
  (∀ entries,
     atomic_write (getCachePath lang ctx s)
       (JSON_stringify (Object_assign cache entries)) (disk s) = (Err e, d) →
     ∃ s', setCachedBatch entries lang ctx s = Thrown e s' ∧
           memCache s' !! getCacheKey lang ctx s
             = Some (Object_assign cache entries) ∧
           disk s' = d ∧ locks s' = locks s).
Proof.
  intros Hlock Hload. split.
  - intros txt v Hw. rewrite setCached_write_through, write_through_cases.
    simpl. rewrite decide_False by done. rewrite Hload, Hw.
    eexists. split; [done|]. simpl. by rewrite lookup_insert_eq.
  - intros entries Hw.
    rewrite setCachedBatch_write_through, write_through_cases.
    simpl. rewrite decide_False by done. rewrite Hload, Hw.
    eexists. split; [done|]. simpl. by rewrite lookup_insert_eq.
Qed.

(** C9. On first touch of a partition, [load] returns the empty mapping
    when there is no persisted file, and fails with an error (returning
    no mapping and recording none) when the file exists but cannot be
    parsed. *)
Theorem loadCache_absent_or_corrupt lang ctx s :
  memCache s !! getCacheKey lang ctx s = None →
  let key := getCacheKey lang ctx s in
  let path := getCachePath lang ctx s in
  (∀ e, fs_readFile (disk s) path = Err e →
        err_code e = Some "ENOENT" →
        loadCache lang ctx s = Returned [] (set_memCache <[key := []]> s))
  ∧
  (∀ content message,
     fs_readFile (disk s) path = Ok content →
     JSON_parse content = inl message →
     loadCache lang ctx s =
       Thrown (new_Error ("Failed to load cache from " +:+ path +:+ ": "
                          +:+ message)) s).
Proof.
  intros Hm. cbv zeta. unfold loadCache. rewrite Hm.
  unfold readFile, parse, loadCache_catch. unfold_async. split.
  - intros e -> He. by rewrite decide_True.
  - intros content message -> ->. done.
Qed.

End CacheFacts.

(** ** The promise heap *)

Lemma settle_hit p o ps :
  ps !! p = Some Pending → settle p o ps !! p = Some o.
Proof.
  intros Hp. unfold settle. rewrite Hp.
  apply list_lookup_insert_eq. by eapply lookup_lt_Some.
Qed.

Lemma settle_other p q o ps : p ≠ q → settle q o ps !! p = ps !! p.
Proof.
  intros Hne. unfold settle.
  destruct (ps !! q) as [[]|]; try done.
  by apply list_lookup_insert_ne.
Qed.

(** A settled promise never changes. *)
Lemma settle_stable p q o x ps :
  ps !! p = Some x → x ≠ Pending → settle q o ps !! p = Some x.
Proof.
  intros Hp Hx. destruct (decide (p = q)) as [->|Hne].
  - unfold settle. rewrite Hp. by destruct x.
  - by rewrite settle_other.
Qed.

Lemma resolve_heap_other ids v ps p :
  p ∉ ids → resolve_heap ids v ps !! p = ps !! p.
Proof.
  unfold resolve_heap. revert ps.
  induction ids as [|q ids IH]; simpl; intros ps Hp; [done|].
  apply not_elem_of_cons in Hp as [Hne Hp].
  rewrite IH by done. by apply settle_other.
Qed.

Lemma resolve_heap_stable ids v ps p x :
  ps !! p = Some x → x ≠ Pending → resolve_heap ids v ps !! p = Some x.
Proof.
  unfold resolve_heap. revert ps.
  induction ids as [|q ids IH]; simpl; intros ps Hp Hx; [done|].
  apply IH; [|done]. by apply settle_stable.
Qed.

Lemma resolve_heap_hit ids v ps p :
  p ∈ ids → ps !! p = Some Pending →
  resolve_heap ids v ps !! p = Some (Resolved v).
Proof.
  revert ps. induction ids as [|q ids IH]; intros ps Hin Hp.
  - by apply elem_of_nil in Hin.
  - change (resolve_heap (q :: ids) v ps)
      with (resolve_heap ids v (settle q (Resolved v) ps)).
    destruct (decide (p = q)) as [->|Hne].
    + apply resolve_heap_stable; [by apply settle_hit|done].
    + apply IH; [set_solver|]. by rewrite settle_other.
Qed.

(** Rejections never resolve anything. *)
Lemma settle_reject_not_resolved ps p q e :
  not_resolved ps p → not_resolved (settle q (Rejected e) ps) p.
Proof.
  intros Hp v. destruct (decide (p = q)) as [->|Hne].
  - unfold settle. destruct (ps !! q) as [[]|] eqn:Hq; rewrite ?Hq; try done.
    + rewrite list_lookup_insert_eq by (by eapply lookup_lt_Some). done.
    + rewrite <- Hq. apply Hp.
  - rewrite settle_other by done. apply Hp.
Qed.

Lemma pending_not_resolved ps p : ps !! p = Some Pending → not_resolved ps p.
Proof. intros Hp v. by rewrite Hp. Qed.

Lemma waiters_unique (q : list QueueItem) item1 item2 p :
  NoDup (concat (map resolve q)) →
  item1 ∈ q → item2 ∈ q → p ∈ resolve item1 → p ∈ resolve item2 →
  item1 = item2.
Proof.
  induction q as [|item q IH]; intros Hnd Hin1 Hin2 Hp1 Hp2.
  - by apply elem_of_nil in Hin1.
  - simpl in Hnd. apply NoDup_app in Hnd as (_ & Hdis & Hnd).
    assert (∀ item', item' ∈ q → p ∈ resolve item' →
              p ∈ concat (map resolve q)) as Hconcat.
    { intros item' Hin Hp. apply list_elem_of_In, in_concat.
      exists (resolve item'). split; [|by apply list_elem_of_In].
      by apply in_map, list_elem_of_In. }
    apply elem_of_cons in Hin1 as [->|Hin1];
      apply elem_of_cons in Hin2 as [->|Hin2]; try done.
    + destruct (Hdis p Hp1). by eapply Hconcat.
    + destruct (Hdis p Hp2). by eapply Hconcat.
    + by apply IH.
Qed.

Section BatchFacts.
Context `{Platform}.

Lemma heap_step_not_resolved tr ps item p :
  (p ∈ resolve item → truthy_opt (obj_get tr (text item)) = false) →
  not_resolved ps p → not_resolved (heap_step tr ps item) p.
Proof.
  intros Hfalsy Hp. unfold heap_step.
  destruct (obj_get tr (text item)) as [v|]; [destruct (truthy v) eqn:Hv|];
    simpl in Hfalsy; try by apply settle_reject_not_resolved.
  intros v'. rewrite resolve_heap_other; [apply Hp|].
  intros Hin. specialize (Hfalsy Hin). congruence.
Qed.

Lemma fold_heap_step_not_resolved tr q ps p :
  (∀ item, item ∈ q → p ∈ resolve item →
           truthy_opt (obj_get tr (text item)) = false) →
  not_resolved ps p → not_resolved (fold_left (heap_step tr) q ps) p.
Proof.
  revert ps. induction q as [|item q IH]; simpl; intros ps Hfalsy Hp; [done|].
  apply IH.
  - intros item' Hin. apply Hfalsy. by right.
  - apply heap_step_not_resolved; [|done]. apply Hfalsy. by left.
Qed.

Lemma fold_reject_not_resolved (q : list QueueItem) e ps p :
  not_resolved ps p →
  not_resolved
    (fold_left (fun ps item => settle (reject item) (Rejected e) ps) q ps) p.
Proof.
  revert ps. induction q as [|item q IH]; simpl; intros ps Hp; [done|].
  by apply IH, settle_reject_not_resolved.
Qed.

Lemma heap_step_other tr ps item p :
  p ∉ resolve item → p ≠ reject item → heap_step tr ps item !! p = ps !! p.
Proof.
  intros Hres Hrej. unfold heap_step.
  destruct (obj_get tr (text item)) as [v|]; [destruct (truthy v)|].
  - by apply resolve_heap_other.
  - by apply settle_other.
  - by apply settle_other.
Qed.

Lemma heap_step_stable tr ps item p x :
  ps !! p = Some x → x ≠ Pending → heap_step tr ps item !! p = Some x.
Proof.
  intros Hp Hx. unfold heap_step.
  destruct (obj_get tr (text item)) as [v|]; [destruct (truthy v)|].
  - by apply resolve_heap_stable.
  - by apply settle_stable.
  - by apply settle_stable.
Qed.

Lemma fold_heap_step_stable tr q ps p x :
  ps !! p = Some x → x ≠ Pending →
  fold_left (heap_step tr) q ps !! p = Some x.
Proof.
  revert ps. induction q as [|item q IH]; simpl; intros ps Hp Hx; [done|].
  apply IH; [|done]. by apply heap_step_stable.
Qed.

Lemma waiters_disjoint_cons item q :
  waiters_disjoint (item :: q) →
  waiters_disjoint q ∧ reject item ∈ resolve item ∧
  ∀ item' p, item' ∈ q → p ∈ resolve item' → p ∉ resolve item.
Proof.
  intros [Hnd Hrej]. simpl in Hnd.
  apply NoDup_app in Hnd as (_ & Hdis & Hnd).
  apply Forall_cons in Hrej as [Hrej0 Hrej].
  repeat split; try done.
  intros item' p Hin Hp Hp0. apply (Hdis p Hp0).
  apply list_elem_of_In, in_concat. exists (resolve item'). split.
  - apply in_map. by apply list_elem_of_In.
  - by apply list_elem_of_In.
Qed.

Lemma waiters_pending_step tr item q ps :
  waiters_disjoint (item :: q) →
  waiters_pending q ps →
  waiters_pending q (heap_step tr ps item).
Proof.
  intros (Hdis & Hrej0 & Hsep)%waiters_disjoint_cons Hpend.
  destruct Hdis as [_ Hrej].
  unfold waiters_pending in *. rewrite Forall_forall in Hpend |- *.
  intros item' Hin. specialize (Hpend item' Hin).
  rewrite Forall_forall in Hpend |- *. intros p Hp.
  rewrite heap_step_other; [by apply Hpend| |].
  - by eapply Hsep.
  - intros ->. by eapply Hsep.
Qed.

(** After the settling loop, in a batch whose waiters are pending and
    disjoint: a text with a non-empty translation has all its waiters
    resolved with it; a text without one has its [reject] called. *)
Lemma fold_heap_step_item tr q ps item :
  waiters_disjoint q →
  waiters_pending q ps →
  item ∈ q →
  (∀ v, obj_get tr (text item) = Some v → v ≠ "" →
        ∀ p, p ∈ resolve item →
             fold_left (heap_step tr) q ps !! p = Some (Resolved v))
  ∧
  (truthy_opt (obj_get tr (text item)) = false →
   fold_left (heap_step tr) q ps !! reject item
     = Some (Rejected (missing_translation item))).
Proof.
  revert ps. induction q as [|item0 q IH]; intros ps Hdis Hpend Hin.
  - by apply elem_of_nil in Hin.
  - simpl. apply elem_of_cons in Hin as [->|Hin].
    + apply Forall_cons in Hpend as [Hpend0 _].
      rewrite Forall_forall in Hpend0.
      apply waiters_disjoint_cons in Hdis as (_ & Hrej0 & _).
      split.
      * intros v Hv Hne p Hp. apply fold_heap_step_stable; [|done].
        unfold heap_step. rewrite Hv. unfold truthy.
        rewrite bool_decide_eq_false_2 by done. simpl.
        apply resolve_heap_hit; [done|by apply Hpend0].
      * intros Hfalsy. apply fold_heap_step_stable; [|done].
        unfold heap_step. destruct (obj_get tr (text item0)) as [v|];
          simpl in Hfalsy; [rewrite Hfalsy|];
          apply settle_hit, Hpend0, Hrej0.
    + apply Forall_cons in Hpend as [_ Hpend'].
      apply IH; [|by apply waiters_pending_step|done].
      by apply waiters_disjoint_cons in Hdis as (? & _).
Qed.

End BatchFacts.

(** ** Flushing *)

Section FlushFacts.
Context `{Platform}.

Ltac unfold_async :=
  unfold bind, ret, throw, try_catch, try_finally, modify in *.

Lemma flush_body_catch response b :
  flush_body response b =
  try_catch
    (do allCached <- getAllCached (b_lang b) (b_ctx b);
     do translations <-
       translate response (b_uniqueTexts b) (b_lang b)
         (selectExamples allCached (maxExamples (b_config b)));
     setCachedBatch translations (b_lang b) (b_ctx b) ;;;
     modify (fun s => fold_left (settle_item translations) (b_queue b) s))
    (fun error => modify (reject_all (b_queue b) error)).
Proof. reflexivity. Qed.

(** What the rest of [flush] does: a full case analysis. *)
Lemma flush_body_cases response b s :
  flush_body response b s =
  let lang := b_lang b in
  let ctx := b_ctx b in
  let q := b_queue b in
  let key := getCacheKey lang ctx s in
  let path := getCachePath lang ctx s in
  match loadCache lang ctx s with
  | Waiting => Waiting
  | Thrown e _ => Returned () (reject_all q e s)
  | Returned cache _ =>
      let examples := selectExamples (spread cache) (maxExamples (b_config b)) in
      let s2 := emit (EvTranslate (b_uniqueTexts b) lang examples)
                     (set_memCache <[key := cache]> s) in
      match response with
      | Err e => Returned () (reject_all q e s2)
      | Ok tr =>
          let merged := Object_assign cache tr in
          if decide (path ∈ locks s) then Waiting
          else
            match atomic_write path (JSON_stringify merged) (disk s) with
            | (Ok _, d) =>
                Returned ()
                  (fold_left (settle_item tr) q
                     (emit (EvPersisted path merged)
                        (set_disk (fun _ => d)
                           (set_memCache <[key := merged]> s2))))
            | (Err e, d) =>
                Returned ()
                  (reject_all q e
                     (set_disk (fun _ => d)
                        (set_memCache <[key := merged]> s2)))
            end
      end
  end.
Proof.
  rewrite flush_body_catch. cbv zeta.
  unfold try_catch, bind at 1, getAllCached, bind at 1.
  destruct (loadCache (b_lang b) (b_ctx b) s) as [cache s1|e s1|] eqn:Hload;
    [| |done].
  - pose proof (loadCache_returned _ _ _ _ _ Hload) as ->.
    unfold ret, bind at 1, translate.
    destruct response as [tr|e]; [|done].
    unfold bind at 1.
    rewrite setCachedBatch_write_through, write_through_cases. cbv zeta.
    change (getCachePath (b_lang b) (b_ctx b) (emit _ (set_memCache _ s)))
      with (getCachePath (b_lang b) (b_ctx b) s).
    change (getCacheKey (b_lang b) (b_ctx b) (emit _ (set_memCache _ s)))
      with (getCacheKey (b_lang b) (b_ctx b) s).
    change (locks (emit _ (set_memCache _ s))) with (locks s).
    destruct (decide _); [done|].
    rewrite (loadCache_hit _ _ _ cache);
      [|simpl; unfold getCacheKey, getConfig; simpl; apply lookup_insert_eq].
    change (disk (emit _ (set_memCache _ s))) with (disk s).
    by destruct (atomic_write _ _ _) as [[[]|e] d].
  - by apply loadCache_thrown in Hload as ->.
Qed.

(** Only [promises] and [trace] change while the queue is settled. *)
Lemma promises_call_resolve item v s :
  promises (call_resolve item v s) = resolve_heap (resolve item) v (promises s).
Proof.
  unfold call_resolve, resolve_heap. revert s.
  induction (resolve item) as [|p ids IH]; simpl; intros s; [done|].
  by rewrite IH.
Qed.

Lemma trace_call_resolve item v s :
  trace (call_resolve item v s)
  = trace s ++ map (fun p => EvResolve p v) (resolve item).
Proof.
  unfold call_resolve. revert s.
  induction (resolve item) as [|p ids IH]; simpl; intros s.
  - by rewrite app_nil_r.
  - rewrite IH. simpl. by rewrite <- app_assoc.
Qed.

Lemma promises_settle_item tr s item :
  promises (settle_item tr s item) = heap_step tr (promises s) item.
Proof.
  unfold settle_item, heap_step, missing_translation.
  destruct (obj_get tr (text item)) as [v|]; [destruct (truthy v)|];
    try done.
  apply promises_call_resolve.
Qed.

Lemma trace_settle_item tr s item :
  trace (settle_item tr s item) = trace s ++ item_events tr item.
Proof.
  unfold settle_item, item_events, missing_translation.
  destruct (obj_get tr (text item)) as [v|]; [destruct (truthy v)|];
    try done.
  apply trace_call_resolve.
Qed.

Lemma promises_fold_settle tr q s :
  promises (fold_left (settle_item tr) q s)
  = fold_left (heap_step tr) q (promises s).
Proof.
  revert s. induction q as [|item q IH]; simpl; intros s; [done|].
  by rewrite IH, promises_settle_item.
Qed.

Lemma trace_fold_settle tr q s :
  trace (fold_left (settle_item tr) q s)
  = trace s ++ concat (map (item_events tr) q).
Proof.
  revert s. induction q as [|item q IH]; simpl; intros s.
  - by rewrite app_nil_r.
  - by rewrite IH, trace_settle_item, <- app_assoc.
Qed.

Lemma fold_settle_frame tr q s :
  let s' := fold_left (settle_item tr) q s in
  config s' = config s ∧ memCache s' = memCache s ∧ locks s' = locks s ∧
  disk s' = disk s ∧ queues s' = queues s ∧ timers s' = timers s ∧
  flushing s' = flushing s.
Proof.
  cbv zeta. revert s. induction q as [|item q IH]; simpl; intros s; [done|].
  destruct (IH (settle_item tr s item)) as (-> & -> & -> & -> & -> & -> & ->).
  unfold settle_item.
  assert (∀ v s0, let s' := call_resolve item v s0 in
            config s' = config s0 ∧ memCache s' = memCache s0 ∧
            locks s' = locks s0 ∧ disk s' = disk s0 ∧
            queues s' = queues s0 ∧ timers s' = timers s0 ∧
            flushing s' = flushing s0) as Hres.
  { intros v. unfold call_resolve.
    induction (resolve item) as [|p ids IHids]; simpl; intros s0; [done|].
    by destruct (IHids (set_promises (settle p (Resolved v))
                          (emit (EvResolve p v) s0)))
      as (-> & -> & -> & -> & -> & -> & ->). }
  destruct (obj_get tr (text item)) as [v|]; [destruct (truthy v)|];
    [apply Hres|done|done].
Qed.

Lemma promises_reject_all q e s :
  promises (reject_all q e s)
  = fold_left (fun ps item => settle (reject item) (Rejected e) ps) q
      (promises s).
Proof.
  unfold reject_all. revert s.
  induction q as [|item q IH]; simpl; intros s; [done|]. by rewrite IH.
Qed.

Lemma trace_reject_all q e s :
  trace (reject_all q e s)
  = trace s ++ map (fun item => EvReject (reject item) e) q.
Proof.
  unfold reject_all. revert s.
  induction q as [|item q IH]; simpl; intros s.
  - by rewrite app_nil_r.
  - rewrite IH. simpl. by rewrite <- app_assoc.
Qed.

Lemma reject_all_frame q e s :
  let s' := reject_all q e s in
  config s' = config s ∧ memCache s' = memCache s ∧ locks s' = locks s ∧
  disk s' = disk s ∧ queues s' = queues s ∧ timers s' = timers s ∧
  flushing s' = flushing s.
Proof.
  cbv zeta. unfold reject_all. revert s.
  induction q as [|item q IH]; simpl; intros s; [done|].
  by destruct (IH (call_reject item e s)) as (-> & -> & -> & -> & -> & -> & ->).
Qed.

(** The rest of a flush whose generator call succeeds and whose result
    is persisted, for a batch with pending, disjoint waiters. *)
Lemma flush_body_settles tr b s cache s1 d :
  let path := getCachePath (b_lang b) (b_ctx b) s in
  path ∉ locks s →
  loadCache (b_lang b) (b_ctx b) s = Returned cache s1 →
  atomic_write path (JSON_stringify (Object_assign cache tr)) (disk s)
    = (Ok (), d) →
  waiters_disjoint (b_queue b) →
  waiters_pending (b_queue b) (promises s) →
  ∃ s',
    flush_body (Ok tr) b s = Returned () s' ∧
    ∀ item, item ∈ b_queue b →
      (∀ v, obj_get tr (text item) = Some v → v ≠ "" →
            ∀ p, p ∈ resolve item → promises s' !! p = Some (Resolved v))
      ∧
      (obj_get tr (text item) = None ∨ obj_get tr (text item) = Some "" →
       promises s' !! reject item
         = Some (Rejected
                   (new_Error ("No translation returned for: " +:+ text item)))).
Proof.
  intros path Hlock Hload Hw Hdis Hpend. subst path.
  rewrite flush_body_cases. cbv zeta.
  rewrite Hload, decide_False, Hw by done.
  eexists. split; [done|]. intros item Hin.
  rewrite promises_fold_settle. simpl.
  destruct (fold_heap_step_item tr (b_queue b) (promises s) item Hdis Hpend Hin)
    as [Hres Hrej].
  split; [exact Hres|].
  intros Hmiss. apply Hrej. by destruct Hmiss as [->| ->].
Qed.

Lemma lookup_reject_events q e i p v :
  map (fun item => EvReject (reject item) e) q !! i ≠ Some (EvResolve p v).
Proof.
  change (map (fun item => EvReject (reject item) e) q)
    with ((fun item => EvReject (reject item) e) <$> q).
  rewrite list_lookup_fmap. by destruct (q !! i).
Qed.

Lemma item_events_resolve tr item p v :
  EvResolve p v ∈ item_events tr item →
  obj_get tr (text item) = Some v ∧ p ∈ resolve item.
Proof.
  unfold item_events.
  destruct (obj_get tr (text item)) as [v0|]; [destruct (truthy v0)|].
  - intros Hin. apply list_elem_of_In, in_map_iff in Hin as (p0 & [= -> ->] & Hp).
    split; [done|]. by apply list_elem_of_In.
  - intros Hin. apply list_elem_of_singleton in Hin. done.
  - intros Hin. apply list_elem_of_singleton in Hin. done.
Qed.


End FlushFacts.

(** ** Deduplication *)

Lemma Array_from_Set_fold (acc l : list string) :
  NoDup (acc ++ l) →
  fold_left (fun acc x => if decide (x ∈ acc) then acc else acc ++ [x]) l acc
  = acc ++ l.
Proof.
  revert acc. induction l as [|x l IH]; simpl; intros acc Hnd.
  - by rewrite app_nil_r.
  - assert (x ∉ acc) as Hx.
    { apply NoDup_app in Hnd as (_ & Hdis & _). intros Hin.
      apply (Hdis x Hin). by left. }
    rewrite decide_False by done.
    rewrite IH; rewrite <- app_assoc; done.
Qed.

(** Texts that are already distinct are kept as they are. *)
Lemma Array_from_Set_NoDup l : NoDup l → Array_from_Set l = l.
Proof. intros Hnd. unfold Array_from_Set. by rewrite Array_from_Set_fold. Qed.

Lemma filter_eq_absent (l : list string) x :
  x ∉ l → filter (fun t => t = x) l = [].
Proof.
  induction l as [|y l IH]; intros Hx; [done|].
  apply not_elem_of_cons in Hx as [Hne Hx].
  rewrite filter_cons, decide_False by done. by apply IH.
Qed.

Lemma filter_eq_NoDup (l : list string) x :
  NoDup l → x ∈ l → length (filter (fun t => t = x) l) = 1.
Proof.
  induction l as [|y l IH]; intros Hnd Hin.
  - by apply elem_of_nil in Hin.
  - apply NoDup_cons in Hnd as [Hy Hnd]. rewrite filter_cons.
    destruct (decide (y = x)) as [->|Hne].
    + simpl. by rewrite filter_eq_absent.
    + apply IH; [done|]. by apply elem_of_cons in Hin as [->|Hin].
Qed.

(** ** The shape of an open queue *)

Section QueueFacts.
Context `{Platform}.

Lemma waiters_bounded q ps p :
  waiters_pending q ps → p ∈ concat (map resolve q) → p < length ps.
Proof.
  intros Hpend Hin.
  apply list_elem_of_In, in_concat in Hin as (ids & Hids & Hp).
  apply in_map_iff in Hids as (item & <- & Hitem).
  unfold waiters_pending in Hpend. rewrite Forall_forall in Hpend.
  specialize (Hpend item (proj2 (list_elem_of_In _ _) Hitem)).
  rewrite Forall_forall in Hpend.
  eapply lookup_lt_Some, Hpend. by apply list_elem_of_In.
Qed.

Lemma waiters_pending_alloc q ps :
  waiters_pending q ps → waiters_pending q (ps ++ [Pending]).
Proof.
  unfold waiters_pending. intros Hpend.
  eapply Forall_impl; [exact Hpend|]. intros item Hitem. simpl in *.
  eapply Forall_impl; [exact Hitem|]. intros p Hp. simpl in *.
  rewrite lookup_app_l; [done|]. by eapply lookup_lt_Some.
Qed.

Lemma waiters_pending_app q1 q2 ps :
  waiters_pending (q1 ++ q2) ps ↔ waiters_pending q1 ps ∧ waiters_pending q2 ps.
Proof. apply Forall_app. Qed.

Lemma pending_fresh (ps : list PromiseState) :
  (ps ++ [Pending]) !! length ps = Some Pending.
Proof. by rewrite lookup_app_r, Nat.sub_diag. Qed.

Lemma waiters_join (c1 r c2 : list nat) p :
  c1 ++ (r ++ [p]) ++ c2 ≡ₚ p :: c1 ++ r ++ c2.
Proof.
  rewrite <- (app_assoc r). simpl. by rewrite <- !Permutation_middle.
Qed.

(** A new caller joins the item of a text that is already queued. *)
Lemma queue_ok_piggyback ps q1 x q2 :
  queue_ok ps (q1 ++ x :: q2) →
  queue_ok (ps ++ [Pending])
    (q1 ++ mkItem (text x) (resolve x ++ [length ps]) (reject x) :: q2).
Proof.
  intros (Htexts & [Hnd Hrej] & Hpend).
  assert (length ps ∉ concat (map resolve (q1 ++ x :: q2))) as Hfresh.
  { intros Hin. apply (waiters_bounded _ ps) in Hin; [lia|done]. }
  split; [|split; [split|]].
  - rewrite map_app in *. done.
  - rewrite map_app, concat_app in *. simpl in *.
    rewrite waiters_join. by apply NoDup_cons.
  - apply Forall_app in Hrej as [Hrej1 Hrej2].
    apply Forall_cons in Hrej2 as [Hx Hrej2].
    apply Forall_app. split; [done|]. apply Forall_cons. split; [|done].
    simpl. set_solver.
  - apply waiters_pending_alloc in Hpend.
    apply waiters_pending_app in Hpend as [Hp1 Hp2].
    apply Forall_cons in Hp2 as [Hx Hp2].
    apply waiters_pending_app. split; [done|].
    apply Forall_cons. split; [|done]. simpl.
    apply Forall_app. split; [done|].
    apply Forall_singleton, pending_fresh.
Qed.

(** A new text opens a new item. *)
Lemma queue_ok_push ps q txt :
  queue_ok ps q →
  txt ∉ map text q →
  queue_ok (ps ++ [Pending]) (q ++ [mkItem txt [length ps] (length ps)]).
Proof.
  intros (Htexts & [Hnd Hrej] & Hpend) Hnew.
  assert (length ps ∉ concat (map resolve q)) as Hfresh.
  { intros Hin. apply (waiters_bounded _ ps) in Hin; [lia|done]. }
  split; [|split; [split|]].
  - rewrite map_app. simpl. apply NoDup_app. split; [done|].
    split; [|apply NoDup_singleton].
    intros t Ht Ht'. apply list_elem_of_singleton in Ht' as ->. done.
  - rewrite map_app, concat_app. simpl. apply NoDup_app. split; [done|].
    split; [|apply NoDup_singleton].
    intros p Hp Hp'. apply list_elem_of_singleton in Hp' as ->. done.
  - apply Forall_app. split; [done|]. apply Forall_singleton. simpl.
    set_solver.
  - apply waiters_pending_app. split; [by apply waiters_pending_alloc|].
    apply Forall_singleton. simpl. apply Forall_singleton, pending_fresh.
Qed.

Lemma queue_ok_nil ps : queue_ok ps [].
Proof.
  split; [apply NoDup_nil_2|]. split; [split|]; simpl.
  - apply NoDup_nil_2.
  - apply Forall_nil_2.
  - apply Forall_nil_2.
Qed.

Lemma waits_on_piggyback q1 x q2 p t n :
  waits_on (q1 ++ x :: q2) t p →
  waits_on (q1 ++ mkItem (text x) (resolve x ++ [n]) (reject x) :: q2) t p.
Proof.
  intros (item & Hin & Ht & Hp).
  apply elem_of_app in Hin as [Hin|Hin].
  - exists item. set_solver.
  - apply elem_of_cons in Hin as [->|Hin].
    + exists (mkItem (text x) (resolve x ++ [n]) (reject x)). simpl.
      set_solver.
    + exists item. set_solver.
Qed.

Lemma waits_on_push q item0 t p :
  waits_on q t p → waits_on (q ++ [item0]) t p.
Proof. intros (item & Hin & Ht & Hp). exists item. set_solver. Qed.

End QueueFacts.

(** ** Requests *)

Section EnqueueFacts.
Context `{Platform}.

Lemma enqueue_eq txt lang ctx s :
  enqueue txt lang ctx s =
  let key := getQueueKey lang ctx in
  let p := length (promises s) in
  let s0 := set_promises (fun ps => ps ++ [Pending]) s in
  let queue := default [] (queues s !! key) in
  match list_find (fun item => text item = txt) queue with
  | Some (i, existing) =>
      (p, set_queues
            <[key := <[i := mkItem (text existing) (resolve existing ++ [p])
                               (reject existing)]> queue]> s0)
  | None =>
      let queue' := queue ++ [mkItem txt [p] p] in
      let s1 := set_queues <[key := queue']> s0 in
      if (batchSize (config s) <=? Z.of_nat (length queue'))%Z then
        (p, flush lang ctx (set_timers (delete key) s1))
      else
        match timers s !! key with
        | None =>
            (p, set_timers
                  <[key := mkTimer lang ctx (batchDelay (config s))]> s1)
        | Some _ => (p, s1)
        end
  end.
Proof. reflexivity. Qed.

Lemma flush_eq lang ctx s q :
  queues s !! getQueueKey lang ctx = Some q →
  q ≠ [] →
  flush lang ctx s =
  set_flushing
    (fun bs => bs ++ [mkBatch lang ctx q (Array_from_Set (map text q))
                        (config s)])
    (set_queues (delete (getQueueKey lang ctx)) s).
Proof. intros Hq Hne. unfold flush. rewrite Hq. by destruct q. Qed.

(** [flush] touches the queue of its partition and the list of suspended
    flushes only. *)
Lemma flush_frame lang ctx s :
  let s' := flush lang ctx s in
  config s' = config s ∧ memCache s' = memCache s ∧ locks s' = locks s ∧
  disk s' = disk s ∧ timers s' = timers s ∧ promises s' = promises s ∧
  trace s' = trace s ∧
  (∀ key, key ≠ getQueueKey lang ctx → queues s' !! key = queues s !! key) ∧
  ∃ bs, flushing s' = flushing s ++ bs.
Proof.
  cbv zeta. unfold flush.
  destruct (queues s !! getQueueKey lang ctx) as [[|item q]|] eqn:Hq;
    simpl; repeat split; try done; try (by exists []; rewrite app_nil_r).
  - intros key Hne. by rewrite lookup_delete_ne.
  - by eexists.
Qed.

(** A request allocates one promise; it touches neither the cache layer
    nor the trace. *)
Lemma enqueue_frame txt lang ctx s :
  let p := (enqueue txt lang ctx s).1 in
  let s' := (enqueue txt lang ctx s).2 in
  p = length (promises s) ∧
  promises s' = promises s ++ [Pending] ∧
  config s' = config s ∧ memCache s' = memCache s ∧ locks s' = locks s ∧
  disk s' = disk s ∧ trace s' = trace s ∧
  ∃ bs, flushing s' = flushing s ++ bs.
Proof.
  cbv zeta. rewrite enqueue_eq. cbv zeta.
  destruct (list_find _ _) as [[i existing]|]; simpl.
  - repeat split; try done. exists []. by rewrite app_nil_r.
  - destruct (_ <=? _)%Z; simpl.
    + match goal with |- context [flush lang ctx ?s0] =>
        destruct (flush_frame lang ctx s0)
          as (-> & -> & -> & -> & _ & -> & -> & _ & bs & ->)
      end. simpl. repeat split; try done. by exists bs.
    + destruct (timers s !! _); simpl; repeat split; try done;
        exists []; by rewrite app_nil_r.
Qed.

(** A request leaves the queues and timers of other keys alone. *)
Lemma enqueue_other_key txt lang ctx s key :
  key ≠ getQueueKey lang ctx →
  let s' := (enqueue txt lang ctx s).2 in
  queues s' !! key = queues s !! key ∧ timers s' !! key = timers s !! key.
Proof.
  intros Hne. cbv zeta. rewrite enqueue_eq. cbv zeta.
  destruct (list_find _ _) as [[i existing]|]; simpl.
  - by rewrite lookup_insert_ne.
  - destruct (_ <=? _)%Z; simpl.
    + match goal with |- context [flush lang ctx ?s0] =>
        destruct (flush_frame lang ctx s0)
          as (_ & _ & _ & _ & -> & _ & _ & Hq & _)
      end. rewrite Hq by done. simpl.
      by rewrite lookup_insert_ne, lookup_delete_ne.
    + destruct (timers s !! getQueueKey lang ctx); simpl;
        by rewrite ?lookup_insert_ne.
Qed.

Lemma find_text_None txt (q : list QueueItem) :
  list_find (fun item => text item = txt) q = None ↔ txt ∉ map text q.
Proof.
  rewrite list_find_None, Forall_forall. split.
  - intros Hq Hin. apply list_elem_of_In, in_map_iff in Hin as (item & Ht & Hin).
    apply (Hq item); [by apply list_elem_of_In|done].
  - intros Hnot item Hin Ht. apply Hnot.
    apply list_elem_of_In, in_map_iff. exists item. split; [done|].
    by apply list_elem_of_In.
Qed.

(** A request that triggers no flush leaves the queue of its partition
    open and well formed, with the caller waiting in it. *)
Lemma enqueue_no_flush txt lang ctx s :
  let key := getQueueKey lang ctx in
  let p := (enqueue txt lang ctx s).1 in
  let s' := (enqueue txt lang ctx s).2 in
  queue_ok (promises s) (default [] (queues s !! key)) →
  flushing s' = flushing s →
  ∃ q, queues s' !! key = Some q ∧
       queue_ok (promises s') q ∧
       waits_on q txt p ∧
       ∀ t p0, waits_on (default [] (queues s !! key)) t p0 → waits_on q t p0.
Proof.
  cbv zeta. rewrite enqueue_eq. cbv zeta.
  set (q0 := default [] (queues s !! getQueueKey lang ctx)).
  intros Hok.
  destruct (list_find _ q0) as [[i x]|] eqn:Hfind; simpl.
  - intros _. apply list_find_Some in Hfind as (Hi & Ht & _).
    pose proof (take_drop_middle _ _ _ Hi) as Hsplit.
    eexists. split; [apply lookup_insert_eq|].
    rewrite insert_take_drop by (by eapply lookup_lt_Some).
    rewrite <- Hsplit in Hok. split; [by apply queue_ok_piggyback|]. split.
    + eexists. split; [apply elem_of_app; right; left|]. simpl. set_solver.
    + intros t p0 Hw. rewrite <- Hsplit in Hw. by apply waits_on_piggyback.
  - apply find_text_None in Hfind.
    destruct (_ <=? _)%Z eqn:Hsize; simpl.
    + rewrite (flush_eq _ _ _
                 (q0 ++ [mkItem txt [length (promises s)] (length (promises s))])).
      * simpl. intros Hgrow. apply (f_equal length) in Hgrow.
        rewrite length_app in Hgrow. simpl in Hgrow. lia.
      * simpl. by rewrite lookup_insert_eq.
      * by destruct q0.
    + assert (∃ q, queues
                (set_queues <[getQueueKey lang ctx
                              := q0 ++ [mkItem txt [length (promises s)]
                                          (length (promises s))]]>
                   (set_promises (fun ps => ps ++ [Pending]) s))
                !! getQueueKey lang ctx = Some q ∧
              queue_ok (promises s ++ [Pending]) q ∧
              waits_on q txt (length (promises s)) ∧
              ∀ t p0, waits_on q0 t p0 → waits_on q t p0) as Hgoal.
      { eexists. split; [apply lookup_insert_eq|].
        split; [by apply queue_ok_push|]. split.
        - eexists. split; [apply elem_of_app; right; left|]. simpl. set_solver.
        - intros t p0 Hw. by apply waits_on_push. }
      by destruct (timers s !! getQueueKey lang ctx).
Qed.

End EnqueueFacts.

Section RepeatedRequests.
Context `{Platform}.

Lemma enqueue_times_S n txt lang ctx s :
  enqueue_times (S n) txt lang ctx s =
  ((enqueue txt lang ctx s).1
     :: (enqueue_times n txt lang ctx (enqueue txt lang ctx s).2).1,
   (enqueue_times n txt lang ctx (enqueue txt lang ctx s).2).2).
Proof.
  simpl. destruct (enqueue txt lang ctx s) as [p s']. simpl.
  by destruct (enqueue_times n txt lang ctx s').
Qed.

Lemma enqueue_times_frame n txt lang ctx s :
  let callers := (enqueue_times n txt lang ctx s).1 in
  let s1 := (enqueue_times n txt lang ctx s).2 in
  length callers = n ∧
  config s1 = config s ∧ memCache s1 = memCache s ∧ locks s1 = locks s ∧
  disk s1 = disk s ∧ trace s1 = trace s ∧
  ∃ bs, flushing s1 = flushing s ++ bs.
Proof.
  cbv zeta. revert s. induction n as [|n IH]; intros s.
  - simpl. repeat split; try done. exists []. by rewrite app_nil_r.
  - rewrite enqueue_times_S. simpl.
    destruct (IH (enqueue txt lang ctx s).2)
      as (-> & -> & -> & -> & -> & -> & bs1 & ->).
    destruct (enqueue_frame txt lang ctx s)
      as (_ & _ & -> & -> & -> & -> & -> & bs0 & ->).
    repeat split; try done. exists (bs0 ++ bs1). by rewrite app_assoc.
Qed.

(** Requests that trigger no flush accumulate in the open queue. *)
Lemma enqueue_times_no_flush n txt lang ctx s :
  let key := getQueueKey lang ctx in
  let callers := (enqueue_times n txt lang ctx s).1 in
  let s1 := (enqueue_times n txt lang ctx s).2 in
  queue_ok (promises s) (default [] (queues s !! key)) →
  flushing s1 = flushing s →
  queue_ok (promises s1) (default [] (queues s1 !! key)) ∧
  (∀ p, p ∈ callers → waits_on (default [] (queues s1 !! key)) txt p) ∧
  (∀ t p0, waits_on (default [] (queues s !! key)) t p0 →
           waits_on (default [] (queues s1 !! key)) t p0).
Proof.
  cbv zeta. revert s. induction n as [|n IH]; intros s Hok Hflush.
  - simpl. split; [done|]. split; [|done]. intros p Hp.
    by apply elem_of_nil in Hp.
  - rewrite enqueue_times_S in *. simpl in *.
    destruct (enqueue_times_frame n txt lang ctx (enqueue txt lang ctx s).2)
      as (_ & _ & _ & _ & _ & _ & bs1 & Hbs1).
    destruct (enqueue_frame txt lang ctx s)
      as (_ & _ & _ & _ & _ & _ & _ & bs0 & Hbs0).
    assert (bs0 = [] ∧ bs1 = []) as [-> ->].
    { rewrite Hbs1, Hbs0, <- app_assoc in Hflush.
      rewrite <- (app_nil_r (flushing s)) in Hflush at 2.
      apply app_inv_head in Hflush. by apply app_eq_nil in Hflush. }
    rewrite app_nil_r in Hbs0, Hbs1.
    destruct (enqueue_no_flush txt lang ctx s Hok Hbs0)
      as (q & Hq & Hokq & Hp & Hkeep).
    destruct (IH (enqueue txt lang ctx s).2) as (Hok1 & Hcallers & Hkeep1).
    { by rewrite Hq. }
    { done. }
    rewrite Hq in Hkeep1. simpl in Hkeep1.
    split; [done|]. split.
    + intros p0 [->|Hp0]%elem_of_cons; [by apply Hkeep1|by apply Hcallers].
    + intros t p0 Hw. by apply Hkeep1, Hkeep.
Qed.

Lemma elem_of_map_text (item : QueueItem) q :
  item ∈ q → text item ∈ map text q.
Proof. intros Hin. by apply list_elem_of_In, in_map, list_elem_of_In. Qed.

Lemma translate_calls_app evs1 evs2 :
  translate_calls (evs1 ++ evs2) = translate_calls evs1 ++ translate_calls evs2.
Proof. unfold translate_calls. apply flat_map_app. Qed.

Lemma translate_calls_rejects q e :
  translate_calls (map (fun item => EvReject (reject item) e) q) = [].
Proof. induction q as [|item q IH]; [done|]. simpl. exact IH. Qed.

Lemma translate_calls_item_events tr q :
  translate_calls (concat (map (item_events tr) q)) = [].
Proof.
  induction q as [|item q IH]; [done|]. simpl.
  rewrite translate_calls_app, IH, app_nil_r. unfold item_events.
  destruct (obj_get tr (text item)) as [v|]; [destruct (truthy v)|];
    try done.
  induction (resolve item) as [|p ids IHids]; [done|]. exact IHids.
Qed.

(** Requests for one text that trigger no flush, on a well-formed open
    queue: one generator invocation, the text once, one value for all. *)
Lemma enqueue_times_translate_once n txt lang ctx s cache :
  let key := getQueueKey lang ctx in
  let callers := (enqueue_times n txt lang ctx s).1 in
  let s1 := (enqueue_times n txt lang ctx s).2 in
  let s2 := flush lang ctx s1 in
  0 < n →
  queue_ok (promises s) (default [] (queues s !! key)) →
  flushing s1 = flushing s →
  memCache s !! getCacheKey lang ctx s = Some cache →
  getCachePath lang ctx s ∉ locks s →
  ∃ b,
    flushing s2 = flushing s ++ [b] ∧
    length callers = n ∧
    length (filter (fun t => t = txt) (b_uniqueTexts b)) = 1 ∧
    ∀ response, ∃ s3 evs,
      flush_resume (length (flushing s)) response s2 = Some s3 ∧
      trace s3 = trace s ++ evs ∧
      translate_calls evs = [b_uniqueTexts b] ∧
      (∀ p q v, p ∈ callers → q ∈ callers →
                promises s3 !! p = Some (Resolved v) →
                promises s3 !! q = Some (Resolved v)) ∧
      ∀ tr v d,
        response = Ok tr →
        obj_get tr txt = Some v →
        v ≠ "" →
        atomic_write (getCachePath lang ctx s)
          (JSON_stringify (Object_assign cache tr)) (disk s) = (Ok (), d) →
        ∀ p, p ∈ callers → promises s3 !! p = Some (Resolved v).
Proof.
  cbv zeta. intros Hn Hok Hflush Hmem Hlock.
  destruct (enqueue_times_no_flush n txt lang ctx s Hok Hflush)
    as (Hok1 & Hcallers & _).
  destruct (enqueue_times_frame n txt lang ctx s)
    as (Hlen & Hcfg & Hmc & Hlk & Hdisk & Htrace & _).
  destruct (enqueue_times n txt lang ctx s) as [callers s1]. simpl in *.
  assert (∃ q, queues s1 !! getQueueKey lang ctx = Some q ∧ q ≠ [])
    as (q & Hq & Hne).
  { destruct callers as [|p callers']; [simpl in Hlen; lia|].
    destruct (Hcallers p) as (item & Hin & _); [by left|].
    destruct (queues s1 !! getQueueKey lang ctx) as [q|];
      simpl in Hin; [|by apply elem_of_nil in Hin].
    exists q. split; [done|]. intros ->. by apply elem_of_nil in Hin. }
  rewrite Hq in Hok1, Hcallers. simpl in Hok1, Hcallers.
  destruct Hok1 as (Htexts & Hdis & Hpend).
  rewrite (flush_eq _ _ _ _ Hq Hne). simpl. rewrite Hflush.
  eexists. split; [done|]. split; [done|]. simpl.
  rewrite Array_from_Set_NoDup by done. split.
  { apply filter_eq_NoDup; [done|].
    destruct callers as [|p callers']; [simpl in Hlen; lia|].
    destruct (Hcallers p) as (item & Hin & <- & _); [by left|].
    by apply elem_of_map_text. }
  assert (∀ p, p ∈ callers → promises s1 !! p = Some Pending) as Hwait.
  { intros p Hp. destruct (Hcallers p Hp) as (item & Hin & _ & Hres).
    unfold waiters_pending in Hpend. rewrite Forall_forall in Hpend.
    specialize (Hpend item Hin). rewrite Forall_forall in Hpend.
    by apply Hpend. }
  assert (∀ p item, p ∈ callers → item ∈ q → p ∈ resolve item →
                    text item = txt) as Hitem.
  { intros p item Hp Hin Hres.
    destruct (Hcallers p Hp) as (item' & Hin' & Ht & Hres').
    destruct Hdis as [Hnd _].
    by rewrite (waiters_unique q item item' p Hnd Hin Hin' Hres Hres'). }
  assert (∀ (e : JSError) (s0 : State),
            promises s0 = promises s1 →
            ∀ p q0 v, p ∈ callers → q0 ∈ callers →
              promises (reject_all q e s0) !! p = Some (Resolved v) →
              promises (reject_all q e s0) !! q0 = Some (Resolved v))
    as Hrejected.
  { intros e s0 Hs0 p q0 v Hp _ Hres. exfalso.
    rewrite promises_reject_all, Hs0 in Hres.
    by eapply (fold_reject_not_resolved q e (promises s1) p);
      [apply pending_not_resolved, Hwait|]. }
  intros response. unfold flush_resume. simpl.
  rewrite Hflush, lookup_app_r, Nat.sub_diag by done. simpl.
  rewrite flush_body_cases. cbv zeta. simpl.
  assert (∀ s0 : State,
            config s0 = config s1 → memCache s0 = memCache s1 →
            loadCache lang ctx s0 = Returned cache s0) as Hload.
  { intros s0 Hc0 Hm0. apply loadCache_hit.
    unfold getCacheKey, getConfig in *. by rewrite Hm0, Hc0, Hmc, Hcfg. }
  rewrite Hload by done.
  assert (∀ s0 : State, config s0 = config s1 →
            getCachePath lang ctx s0 = getCachePath lang ctx s) as Hpath.
  { intros s0 Hc0. unfold getCachePath, getConfig. by rewrite Hc0, Hcfg. }
  rewrite !Hpath by done. rewrite Hlk, Hdisk.
  destruct response as [tr|e].
  - rewrite decide_False by done.
    destruct (atomic_write _ _ _) as [[[]|e] d] eqn:Hw.
    + eexists _, _. split; [done|]. split.
      { rewrite trace_fold_settle. simpl. rewrite Htrace, <- !app_assoc.
        done. }
      split.
      { simpl. by rewrite translate_calls_item_events. }
      assert (∀ v, obj_get tr txt = Some v → v ≠ "" →
                ∀ p, p ∈ callers →
                  fold_left (heap_step tr) q (promises s1) !! p
                  = Some (Resolved v)) as Hall.
      { intros v Hv Hv0 p Hp.
        destruct (Hcallers p Hp) as (item & Hin & Ht & Hres).
        eapply (fold_heap_step_item tr q); try done. by rewrite Ht. }
      rewrite promises_fold_settle. simpl. split.
      * intros p q1 v Hp Hq1 Hres.
        destruct (obj_get tr txt) as [v0|] eqn:Hv0;
          [destruct (decide (v0 = "")) as [->|Hne0]|].
        -- exfalso.
           eapply (fold_heap_step_not_resolved tr q (promises s1) p);
             [|by apply pending_not_resolved, Hwait|exact Hres].
           intros item Hin Hin'. by rewrite (Hitem p item), Hv0.
        -- rewrite (Hall v0 eq_refl Hne0 p Hp) in Hres.
           injection Hres as <-. by apply Hall.
        -- exfalso.
           eapply (fold_heap_step_not_resolved tr q (promises s1) p);
             [|by apply pending_not_resolved, Hwait|exact Hres].
           intros item Hin Hin'. by rewrite (Hitem p item), Hv0.
      * intros tr' v d' [= <-] Hv Hv0 _ p Hp. by apply Hall.
    + eexists _, _. split; [done|]. split.
      { rewrite trace_reject_all. simpl. rewrite Htrace, <- !app_assoc.
        done. }
      split.
      { simpl. by rewrite translate_calls_rejects. }
      split; [by apply Hrejected|].
      intros tr' v d' [= <-] Hv Hv0 Hw'. rewrite Hw' in Hw. done.
  - eexists _, _. split; [done|]. split.
    { rewrite trace_reject_all. simpl. rewrite Htrace, <- !app_assoc. done. }
    split.
    { simpl. by rewrite translate_calls_rejects. }
    split; [by apply Hrejected|].
    intros tr' v d' [=].
Qed.

End RepeatedRequests.

(** ** The size threshold *)

Section Threshold.
Context `{Platform}.

(** A request for a new text that reaches the size threshold, on a
    queue with one item per text. *)
Lemma enqueue_at_threshold txt lang ctx s :
  let key := getQueueKey lang ctx in
  let queue := default [] (queues s !! key) in
  let p := length (promises s) in
  let batch := queue ++ [mkItem txt [p] p] in
  let s' := (enqueue txt lang ctx s).2 in
  NoDup (map text queue) →
  txt ∉ map text queue →
  (batchSize (config s) ≤ Z.of_nat (distinct_texts batch))%Z →
  timers s' !! key = None ∧
  queues s' !! key = None ∧
  flushing s' = flushing s ++ [mkBatch lang ctx batch (map text batch) (config s)] ∧
  ∀ txt',
    let p' := (enqueue txt' lang ctx s').1 in
    let s'' := (enqueue txt' lang ctx s').2 in
    let fresh_batch := [mkItem txt' [p'] p'] in
    (queues s'' !! key = Some fresh_batch ∧
     timers s'' !! key = Some (mkTimer lang ctx (batchDelay (config s))) ∧
     flushing s'' = flushing s')
    ∨
    (queues s'' !! key = None ∧
     flushing s'' = flushing s' ++ [mkBatch lang ctx fresh_batch [txt'] (config s)]).
Proof.
  cbv zeta. intros Htexts Hnew Hsize.
  set (q0 := default [] (queues s !! getQueueKey lang ctx)) in *.
  set (item := mkItem txt [length (promises s)] (length (promises s))) in *.
  assert (NoDup (map text (q0 ++ [item]))) as Hnd.
  { rewrite map_app. simpl. apply NoDup_app. split; [done|].
    split; [|apply NoDup_singleton].
    intros t Ht Ht'. apply list_elem_of_singleton in Ht' as ->. done. }
  unfold distinct_texts in Hsize. rewrite Array_from_Set_NoDup in Hsize by done.
  rewrite length_map in Hsize.
  assert ((enqueue txt lang ctx s).2 =
          set_flushing
            (fun bs => bs ++ [mkBatch lang ctx (q0 ++ [item])
                                (map text (q0 ++ [item])) (config s)])
            (set_queues (delete (getQueueKey lang ctx))
               (set_timers (delete (getQueueKey lang ctx))
                  (set_queues <[getQueueKey lang ctx := q0 ++ [item]]>
                     (set_promises (fun ps => ps ++ [Pending]) s))))) as ->.
  { rewrite enqueue_eq. cbv zeta. fold q0.
    rewrite (proj2 (find_text_None txt q0)) by done. fold item.
    rewrite (proj2 (Z.leb_le _ _)) by done. simpl.
    rewrite (flush_eq _ _ _ (q0 ++ [item])).
    - simpl. by rewrite Array_from_Set_NoDup.
    - simpl. by rewrite lookup_insert_eq.
    - by destruct q0. }
  simpl. split; [apply lookup_delete_eq|]. split; [apply lookup_delete_eq|].
  split; [done|]. intros txt'.
  rewrite enqueue_eq. cbv zeta. simpl. rewrite lookup_delete_eq. simpl.
  rewrite length_app. simpl.
  set (p' := length (promises s) + 1).
  destruct (batchSize (config s) <=? Z.of_nat 1)%Z eqn:Hone; simpl.
  - right.
    rewrite (flush_eq _ _ _ [mkItem txt' [p'] p']); simpl.
    + split; [apply lookup_delete_eq|]. done.
    + by rewrite lookup_insert_eq.
    + done.
  - left. rewrite lookup_delete_eq. simpl.
    by rewrite !lookup_insert_eq.
Qed.

End Threshold.

(** ** Partition keys *)

Lemma colon_free_String c s :
  colon_free (String c s) ↔ c ≠ ":"%char ∧ colon_free s.
Proof.
  unfold colon_free. simpl. rewrite not_elem_of_cons. naive_solver.
Qed.

Lemma append_nil_l b : "" +:+ b = b.
Proof. reflexivity. Qed.

Lemma append_String c a b : String c a +:+ b = String c (a +:+ b).
Proof. reflexivity. Qed.

(** A key built with a colon separator determines its two parts when the
    first has no colon. *)
Lemma colon_key_inj a b a' b' :
  colon_free a → colon_free a' →
  a +:+ ":" +:+ b = a' +:+ ":" +:+ b' → a = a' ∧ b = b'.
Proof.
  revert a'. induction a as [|c a IH]; intros [|c' a'] Ha Ha';
    rewrite ?append_String, ?append_nil_l.
  - by intros [= ->].
  - apply colon_free_String in Ha' as [Hc' _]. intros [= Hc _]. by subst.
  - apply colon_free_String in Ha as [Hc _]. intros [= Hc' _]. by subst.
  - apply colon_free_String in Ha as [_ Ha].
    apply colon_free_String in Ha' as [_ Ha'].
    intros [= -> Heq]. by destruct (IH a' Ha Ha' Heq) as [-> ->].
Qed.

Section Partitions.
Context `{Platform}.

(** C5 (as amended). Queues are keyed by language and context only.
    Two partitions whose languages hold no colon and that differ in
    language or context have different queue keys, and a request in one
    leaves the queue and the timer of the other untouched, so their
    requests never join one batch.  When the storage roots hold no colon
    either, partitions that differ in any component have different
    in-memory cache keys. *)
Theorem partitions_with_distinct_keys_are_isolated P1 P2 txt s :
  colon_free (language P1) →
  colon_free (language P2) →
  let key1 := getQueueKey (language P1) (context P1) in
  let key2 := getQueueKey (language P2) (context P2) in
  ((language P1, context P1) ≠ (language P2, context P2) →
   key1 ≠ key2 ∧
   let s1 := (request P1 txt s).2 in
   let s2 := (request P2 txt s1).2 in
   queues s1 !! key2 = queues s !! key2 ∧
   timers s1 !! key2 = timers s !! key2 ∧
   queues s2 !! key1 = queues s1 !! key1 ∧
   timers s2 !! key1 = timers s1 !! key1)
  ∧
  (colon_free (storage_root P1) → colon_free (storage_root P2) →
   P1 ≠ P2 →
   getCacheKey (language P1) (context P1) (use_root (storage_root P1) s)
   ≠ getCacheKey (language P2) (context P2) (use_root (storage_root P2) s)).
Proof.
  intros Hl1 Hl2. cbv zeta. split.
  - intros Hne.
    assert (getQueueKey (language P1) (context P1)
            ≠ getQueueKey (language P2) (context P2)) as Hkeys.
    { unfold getQueueKey. intros Heq.
      apply colon_key_inj in Heq as [? ?]; [|done..]. apply Hne. congruence. }
    split; [done|]. unfold request.
    split; [|split; [|split]].
    + by destruct (enqueue_other_key txt (language P1) (context P1)
                     (use_root (storage_root P1) s) _ (not_eq_sym Hkeys)) as [-> _].
    + by destruct (enqueue_other_key txt (language P1) (context P1)
                     (use_root (storage_root P1) s) _ (not_eq_sym Hkeys)) as [_ ->].
    + match goal with |- context [enqueue txt (language P2) (context P2) ?s0] =>
        by destruct (enqueue_other_key txt (language P2) (context P2) s0 _ Hkeys)
          as [-> _]
      end.
    + match goal with |- context [enqueue txt (language P2) (context P2) ?s0] =>
        by destruct (enqueue_other_key txt (language P2) (context P2) s0 _ Hkeys)
          as [_ ->]
      end.
  - intros Hr1 Hr2 Hne Heq. apply Hne.
    unfold getCacheKey, getConfig, use_root, configure in Heq. simpl in Heq.
    apply colon_key_inj in Heq as [Hroot Heq]; [|done..].
    apply colon_key_inj in Heq as [Hlang Hctx]; [|done..].
    destruct P1, P2. simpl in *. congruence.
Qed.

End Partitions.

(** ** The example selector *)

Lemma ordered_keys_app o1 o2 :
  ordered_keys (o1 ++ o2) → ordered_keys o1 ∧ ordered_keys o2.
Proof.
  induction o1 as [|[k v] o1 IH]; simpl; [done|].
  intros (Hk & Hprec & Hord). destruct (IH Hord) as [Ho1 Ho2].
  rewrite fmap_app in Hk. apply not_elem_of_app in Hk as [Hk _].
  apply Forall_app in Hprec as [Hprec _]. done.
Qed.

Lemma ordered_keys_drop n o : ordered_keys o → ordered_keys (drop n o).
Proof.
  intros Hord. rewrite <- (take_drop n o) in Hord.
  by apply ordered_keys_app in Hord as [_ ?].
Qed.

Lemma ordered_keys_last_absent o k v :
  ordered_keys (o ++ [(k, v)]) → obj_get o k = None.
Proof.
  induction o as [|[k0 v0] o IH]; simpl; [done|].
  intros (Hk & _ & Hord). rewrite fmap_app in Hk.
  apply not_elem_of_app in Hk as [_ Hk]. simpl in Hk.
  apply not_elem_of_cons in Hk as [Hne _].
  rewrite decide_False by done. by apply IH.
Qed.

Lemma insert_index_last n o k v :
  array_index k = Some n →
  ordered_keys (o ++ [(k, v)]) →
  insert_index n k v o = o ++ [(k, v)].
Proof.
  intros Hidx. induction o as [|[k0 v0] o IH]; simpl; [done|].
  intros (_ & Hprec & Hord).
  rewrite Forall_app, Forall_singleton in Hprec. destruct Hprec as [_ Hprec].
  unfold key_precedes in Hprec. cbn [fst] in Hprec. rewrite Hidx in Hprec.
  destruct (array_index k0) as [n0|]; [|done].
  rewrite (proj2 (N.ltb_lt _ _)) by done. by rewrite IH.
Qed.

(** Adding the property that comes last in property order appends it. *)
Lemma obj_set_last o k v :
  ordered_keys (o ++ [(k, v)]) → obj_set o k v = o ++ [(k, v)].
Proof.
  intros Hord. unfold obj_set, own_insert.
  rewrite (ordered_keys_last_absent _ _ _ Hord).
  destruct (array_index k) as [n|] eqn:Hidx; [|done].
  by apply insert_index_last.
Qed.

(** [Object.fromEntries] rebuilds an object from its own entries. *)
Lemma Object_fromEntries_entries o :
  ordered_keys o → Object_fromEntries (Object_entries o) = o.
Proof.
  unfold Object_fromEntries, Object_entries.
  induction o as [|[k v] o IH] using rev_ind; [done|].
  intros Hord. rewrite fold_left_app. simpl.
  rewrite IH by (by apply ordered_keys_app in Hord as [? _]).
  by apply obj_set_last.
Qed.

Lemma selectExamples_all cache m :
  (Z.of_nat (length cache) ≤ m)%Z → selectExamples cache m = cache.
Proof.
  intros Hle. unfold selectExamples, Object_entries.
  by rewrite (proj2 (Z.leb_le _ _)).
Qed.

(** With a positive bound below the size, the last [m] entries. *)
Lemma selectExamples_last cache m :
  ordered_keys cache →
  (0 < m < Z.of_nat (length cache))%Z →
  selectExamples cache m = drop (length cache - Z.to_nat m) cache.
Proof.
  intros Hord Hm. unfold selectExamples, Object_entries, Array_slice.
  rewrite (proj2 (Z.leb_gt _ _)) by lia.
  rewrite (proj2 (Z.ltb_lt _ _)) by lia.
  replace (Z.to_nat (Z.max (Z.of_nat (length cache) + - m) 0))
    with (length cache - Z.to_nat m) by lia.
  apply (Object_fromEntries_entries (drop _ cache)).
  by apply ordered_keys_drop.
Qed.

(** With the bound [0], everything. *)
Lemma selectExamples_zero cache :
  ordered_keys cache → selectExamples cache 0 = cache.
Proof.
  intros Hord. unfold selectExamples, Object_entries, Array_slice.
  destruct (_ <=? _)%Z; [done|].
  change (- 0)%Z with 0%Z. simpl. rewrite Z.min_l by lia. simpl.
  by apply Object_fromEntries_entries.
Qed.

(** ** The invariant of the coalescing queue *)

Lemma concat_map_bind {A B} (f : A → list B) (l : list A) :
  concat (map f l) = l ≫= f.
Proof. induction l as [|x l IH]; [done|]. simpl. by rewrite IH. Qed.

Section Invariant.
Context `{Platform}.

Lemma waiters_ok_perm ps l l' :
  l ≡ₚ l' → waiters_ok ps l → waiters_ok ps l'.
Proof.
  intros Hperm [[Hnd Hrej] Hpend]. unfold waiters_ok, waiters_disjoint,
    waiters_pending in *.
  rewrite concat_map_bind in *. by rewrite <- Hperm.
Qed.

Lemma waiters_ok_app ps l1 l2 :
  waiters_ok ps (l1 ++ l2) → waiters_ok ps l1 ∧ waiters_ok ps l2.
Proof.
  intros [[Hnd Hrej] Hpend]. unfold waiters_ok, waiters_disjoint,
    waiters_pending in *.
  rewrite map_app, concat_app in Hnd.
  apply NoDup_app in Hnd as (Hnd1 & _ & Hnd2).
  apply Forall_app in Hrej as [Hrej1 Hrej2].
  apply Forall_app in Hpend as [Hpend1 Hpend2]. done.
Qed.

Lemma waiters_ok_piggyback ps q1 x q2 :
  waiters_ok ps (q1 ++ x :: q2) →
  waiters_ok (ps ++ [Pending])
    (q1 ++ mkItem (text x) (resolve x ++ [length ps]) (reject x) :: q2).
Proof.
  intros [[Hnd Hrej] Hpend].
  assert (length ps ∉ concat (map resolve (q1 ++ x :: q2))) as Hfresh.
  { intros Hin. apply (waiters_bounded _ ps) in Hin; [lia|done]. }
  split; [split|].
  - rewrite map_app, concat_app in *. simpl in *.
    rewrite waiters_join. by apply NoDup_cons.
  - apply Forall_app in Hrej as [Hrej1 Hrej2].
    apply Forall_cons in Hrej2 as [Hx Hrej2].
    apply Forall_app. split; [done|]. apply Forall_cons. split; [|done].
    simpl. set_solver.
  - apply waiters_pending_alloc in Hpend.
    apply waiters_pending_app in Hpend as [Hp1 Hp2].
    apply Forall_cons in Hp2 as [Hx Hp2].
    apply waiters_pending_app. split; [done|].
    apply Forall_cons. split; [|done]. simpl.
    apply Forall_app. split; [done|].
    apply Forall_singleton, pending_fresh.
Qed.

Lemma waiters_ok_push ps l txt :
  waiters_ok ps l →
  waiters_ok (ps ++ [Pending]) (mkItem txt [length ps] (length ps) :: l).
Proof.
  intros [[Hnd Hrej] Hpend].
  assert (length ps ∉ concat (map resolve l)) as Hfresh.
  { intros Hin. apply (waiters_bounded _ ps) in Hin; [lia|done]. }
  split; [split|].
  - simpl. by apply NoDup_cons.
  - apply Forall_cons. split; [simpl; set_solver|done].
  - apply Forall_cons. split; [|by apply waiters_pending_alloc].
    simpl. apply Forall_singleton, pending_fresh.
Qed.

Lemma open_items_insert (m : gmap string (list QueueItem)) key q :
  open_items (<[key := q]> m) ≡ₚ q ++ open_items (delete key m).
Proof.
  unfold open_items. rewrite <- insert_delete_eq.
  rewrite map_to_list_insert by apply lookup_delete_eq. done.
Qed.

Lemma open_items_lookup (m : gmap string (list QueueItem)) key :
  open_items m ≡ₚ default [] (m !! key) ++ open_items (delete key m).
Proof.
  destruct (m !! key) as [q|] eqn:Hq; simpl.
  - unfold open_items. by rewrite <- (map_to_list_delete _ _ _ Hq).
  - by rewrite delete_id.
Qed.

Lemma fold_heap_step_other tr q ps p :
  p ∉ concat (map resolve q) →
  Forall (fun item => reject item ∈ resolve item) q →
  fold_left (heap_step tr) q ps !! p = ps !! p.
Proof.
  revert ps. induction q as [|item q IH]; simpl; intros ps Hp Hrej; [done|].
  apply not_elem_of_app in Hp as [Hp0 Hp].
  apply Forall_cons in Hrej as [Hrej0 Hrej].
  rewrite IH by done. apply heap_step_other; [done|]. by intros ->.
Qed.

Lemma fold_reject_other (q : list QueueItem) e ps p :
  p ∉ concat (map resolve q) →
  Forall (fun item => reject item ∈ resolve item) q →
  fold_left (fun ps item => settle (reject item) (Rejected e) ps) q ps !! p
  = ps !! p.
Proof.
  revert ps. induction q as [|item q IH]; simpl; intros ps Hp Hrej; [done|].
  apply not_elem_of_app in Hp as [Hp0 Hp].
  apply Forall_cons in Hrej as [Hrej0 Hrej].
  rewrite IH by done. apply settle_other. by intros ->.
Qed.

(** Settling a batch leaves the waiters of all other items pending. *)
Lemma waiters_ok_settled ps ps' bq rest :
  waiters_ok ps (bq ++ rest) →
  (∀ p, p ∉ concat (map resolve bq) → ps' !! p = ps !! p) →
  waiters_ok ps' rest.
Proof.
  intros Hok Hother.
  pose proof (waiters_ok_app _ _ _ Hok) as [_ [Hdis Hpend]].
  split; [done|]. destruct Hok as [[Hnd _] _].
  rewrite map_app, concat_app in Hnd.
  apply NoDup_app in Hnd as (_ & Hsep & _).
  unfold waiters_pending in *. rewrite Forall_forall in Hpend |- *.
  intros item Hin. specialize (Hpend item Hin).
  rewrite Forall_forall in Hpend |- *. intros p Hp.
  rewrite Hother; [by apply Hpend|].
  intros Hbq. apply (Hsep p Hbq).
  apply list_elem_of_In, in_concat. exists (resolve item).
  split; [by apply in_map, list_elem_of_In|by apply list_elem_of_In].
Qed.

End Invariant.

Section InvariantSteps.
Context `{Platform}.

Lemma consistent_frame s s' :
  queues s' = queues s → flushing s' = flushing s →
  promises s' = promises s → consistent s → consistent s'.
Proof.
  intros Hq Hf Hp. unfold consistent, items. by rewrite Hq, Hf, Hp.
Qed.

Lemma items_split s key :
  items s ≡ₚ default [] (queues s !! key)
             ++ (open_items (delete key (queues s))
                 ++ (flushing s ≫= b_queue)).
Proof.
  unfold items. rewrite (open_items_lookup (queues s) key) at 1.
  by rewrite <- app_assoc.
Qed.

Lemma consistent_open_texts s key :
  consistent s → NoDup (map text (default [] (queues s !! key))).
Proof.
  intros [_ Htexts]. destruct (queues s !! key) as [q|] eqn:Hq; simpl.
  - by eapply Htexts.
  - apply NoDup_nil_2.
Qed.

(** Detaching a queue moves its items; no waiter is touched. *)
Lemma flush_consistent lang ctx s :
  consistent s → consistent (flush lang ctx s).
Proof.
  intros [Hok Htexts]. unfold flush.
  destruct (queues s !! getQueueKey lang ctx) as [[|item q]|] eqn:Hq;
    [done| |done].
  split; simpl.
  - eapply waiters_ok_perm; [|exact Hok].
    rewrite (items_split s (getQueueKey lang ctx)), Hq. unfold items. simpl.
    rewrite bind_app. simpl. rewrite app_nil_r. solve_Permutation.
  - intros key q0 [_ Hq0]%lookup_delete_Some. by eapply Htexts.
Qed.

Lemma map_text_piggyback (q : list QueueItem) i x p :
  q !! i = Some x →
  map text (<[i := mkItem (text x) (resolve x ++ [p]) (reject x)]> q)
  = map text q.
Proof.
  intros Hi. rewrite <- (take_drop_middle _ _ _ Hi) at 2.
  rewrite insert_take_drop by (by eapply lookup_lt_Some).
  by rewrite !map_app.
Qed.

(** A request keeps the invariant. *)
Lemma enqueue_consistent txt lang ctx s :
  consistent s → consistent (enqueue txt lang ctx s).2.
Proof.
  intros Hcons. pose proof Hcons as [Hok Htexts].
  pose proof (consistent_open_texts s (getQueueKey lang ctx) Hcons) as Hnd0.
  rewrite enqueue_eq. cbv zeta.
  set (key := getQueueKey lang ctx) in *.
  set (q0 := default [] (queues s !! key)) in *.
  set (rest := open_items (delete key (queues s)) ++ (flushing s ≫= b_queue)).
  assert (waiters_ok (promises s) (q0 ++ rest)) as Hok0.
  { eapply waiters_ok_perm; [|exact Hok]. apply items_split. }
  assert (∀ q',
            waiters_ok (promises s ++ [Pending]) (q' ++ rest) →
            NoDup (map text q') →
            consistent
              (set_queues <[key := q']>
                 (set_promises (fun ps => ps ++ [Pending]) s))) as Hstep.
  { intros q' Hok' Hnd'. split; simpl.
    - eapply waiters_ok_perm; [|exact Hok']. unfold items. simpl.
      by rewrite open_items_insert, <- app_assoc.
    - intros key' q1. rewrite lookup_insert.
      destruct (decide (key = key')) as [<-|Hne];
        [by intros [= <-]|by apply Htexts]. }
  destruct (list_find _ q0) as [[i x]|] eqn:Hfind; simpl.
  - apply list_find_Some in Hfind as (Hi & Ht & _).
    apply Hstep.
    + rewrite insert_take_drop by (by eapply lookup_lt_Some).
      rewrite <- (take_drop_middle _ _ _ Hi) in Hok0.
      rewrite <- app_assoc in Hok0 |- *. simpl in *.
      by apply waiters_ok_piggyback.
    + by rewrite map_text_piggyback.
  - apply find_text_None in Hfind.
    set (item := mkItem txt [length (promises s)] (length (promises s))).
    assert (consistent
              (set_queues <[key := q0 ++ [item]]>
                 (set_promises (fun ps => ps ++ [Pending]) s))) as Hs1.
    { apply Hstep.
      - eapply waiters_ok_perm;
          [|exact (waiters_ok_push _ _ txt Hok0)].
        fold item. solve_Permutation.
      - rewrite map_app. simpl. apply NoDup_app. split; [done|].
        split; [|apply NoDup_singleton].
        intros t Ht Ht'. apply list_elem_of_singleton in Ht' as ->. done. }
    destruct (_ <=? _)%Z; simpl.
    + apply flush_consistent. by eapply consistent_frame; [..|exact Hs1].
    + destruct (timers s !! key); simpl; [done|].
      by eapply consistent_frame; [..|exact Hs1].
Qed.

Lemma timer_fire_consistent key s s' :
  consistent s → timer_fire key s = Some s' → consistent s'.
Proof.
  intros Hcons. unfold timer_fire.
  destruct (timers s !! key) as [t|]; [|done]. intros [= <-].
  apply flush_consistent. by eapply consistent_frame; [..|exact Hcons].
Qed.

(** The rest of a flush settles waiters of its own batch only. *)
Lemma flush_body_effect response b s s' :
  flush_body response b s = Returned () s' →
  queues s' = queues s ∧ flushing s' = flushing s ∧
  (Forall (fun item => reject item ∈ resolve item) (b_queue b) →
   ∀ p, p ∉ concat (map resolve (b_queue b)) →
        promises s' !! p = promises s !! p).
Proof.
  rewrite flush_body_cases. cbv zeta.
  destruct (loadCache (b_lang b) (b_ctx b) s) as [cache s1|e s1|];
    [| |done].
  - destruct response as [tr|e].
    + destruct (decide _); [done|].
      destruct (atomic_write _ _ _) as [[[]|e] d]; intros [= <-].
      * match goal with |- context [fold_left (settle_item tr) _ ?s0] =>
          destruct (fold_settle_frame tr (b_queue b) s0)
            as (_ & _ & _ & _ & -> & _ & ->)
        end. split; [done|]. split; [done|]. intros Hrej p Hp.
        rewrite promises_fold_settle. simpl. by apply fold_heap_step_other.
      * match goal with |- context [reject_all _ e ?s0] =>
          destruct (reject_all_frame (b_queue b) e s0)
            as (_ & _ & _ & _ & -> & _ & ->)
        end. split; [done|]. split; [done|]. intros Hrej p Hp.
        rewrite promises_reject_all. simpl. by apply fold_reject_other.
    + intros [= <-].
      match goal with |- context [reject_all _ e ?s0] =>
        destruct (reject_all_frame (b_queue b) e s0)
          as (_ & _ & _ & _ & -> & _ & ->)
      end. split; [done|]. split; [done|]. intros Hrej p Hp.
      rewrite promises_reject_all. simpl. by apply fold_reject_other.
  - intros [= <-].
    destruct (reject_all_frame (b_queue b) e s)
      as (_ & _ & _ & _ & -> & _ & ->).
    split; [done|]. split; [done|]. intros Hrej p Hp.
    rewrite promises_reject_all. by apply fold_reject_other.
Qed.

Lemma items_detached s i b :
  flushing s !! i = Some b →
  items s ≡ₚ b_queue b ++ items (set_flushing (delete i) s).
Proof.
  intros Hb. unfold items. simpl.
  rewrite <- (take_drop_middle _ _ _ Hb) at 1.
  rewrite delete_take_drop, !bind_app. simpl. solve_Permutation.
Qed.

Lemma flush_resume_consistent i response s s' :
  consistent s → flush_resume i response s = Some s' → consistent s'.
Proof.
  intros [Hok Htexts]. unfold flush_resume.
  destruct (flushing s !! i) as [b|] eqn:Hb; [|done].
  destruct (flush_body _ _ _) as [[] s1| |] eqn:Hbody; [|done..].
  intros [= <-].
  destruct (flush_body_effect _ _ _ _ Hbody) as (Hq & Hf & Hp).
  assert (waiters_ok (promises s)
            (b_queue b ++ items (set_flushing (delete i) s))) as Hok'.
  { eapply waiters_ok_perm; [|exact Hok]. by apply items_detached. }
  split.
  - unfold items at 1. rewrite Hq, Hf.
    eapply (waiters_ok_settled _ _ (b_queue b)); [exact Hok'|].
    apply Hp. by destruct (waiters_ok_app _ _ _ Hok') as [[[_ ?] _] _].
  - rewrite Hq. exact Htexts.
Qed.

Lemma getCached_frame txt lang ctx s r s' :
  getCached txt lang ctx s = Returned r s' →
  queues s' = queues s ∧ flushing s' = flushing s ∧ promises s' = promises s.
Proof.
  unfold getCached, bind, ret.
  destruct (loadCache lang ctx s) as [cache s1|e s1|] eqn:Hload; [|done..].
  intros [= _ <-]. by apply loadCache_returned in Hload as ->.
Qed.

Lemma getAllCached_frame lang ctx s r s' :
  getAllCached lang ctx s = Returned r s' →
  queues s' = queues s ∧ flushing s' = flushing s ∧ promises s' = promises s.
Proof.
  unfold getAllCached, bind, ret.
  destruct (loadCache lang ctx s) as [cache s1|e s1|] eqn:Hload; [|done..].
  intros [= _ <-]. by apply loadCache_returned in Hload as ->.
Qed.

(** A write, successful or not, leaves the queues and the promises
    alone. *)
Lemma write_through_frame f lang ctx s :
  match write_through f lang ctx s with
  | Returned _ s' | Thrown _ s' =>
      queues s' = queues s ∧ flushing s' = flushing s ∧
      promises s' = promises s
  | Waiting => True
  end.
Proof.
  rewrite write_through_cases. cbv zeta.
  destruct (decide _); [done|].
  destruct (loadCache lang ctx s) as [cache s1|e s1|]; [|done..].
  by destruct (atomic_write _ _ _) as [[[]|e] d].
Qed.

Lemma step_consistent s s' : consistent s → step s s' → consistent s'.
Proof.
  intros Hcons Hstep.
  assert (∀ f lang ctx,
            on_return (write_through f lang ctx s) (fun _ s0 => s0 = s') ∨
            on_throw (write_through f lang ctx s) (fun _ s0 => s0 = s') →
            consistent s') as Hwrite.
  { intros f lang ctx Hout.
    pose proof (write_through_frame f lang ctx s) as Hframe.
    destruct (write_through f lang ctx s) as [r s0|e s0|];
      destruct Hout as [Hout|Hout]; simpl in Hout; try done; subst s0;
      destruct Hframe as (? & ? & ?);
      by eapply consistent_frame; [..|exact Hcons]. }
  destruct Hstep as
    [partial|txt lang ctx r s' Hget|lang ctx r s' Hget
    |txt v lang ctx s' Hput|txt v lang ctx e s' Hput
    |entries lang ctx s' Hput|entries lang ctx e s' Hput
    |txt lang ctx|key s' Htimer|i response s' Hflush].
  - by eapply consistent_frame; [..|exact Hcons].
  - apply getCached_frame in Hget as (? & ? & ?).
    by eapply consistent_frame; [..|exact Hcons].
  - apply getAllCached_frame in Hget as (? & ? & ?).
    by eapply consistent_frame; [..|exact Hcons].
  - eapply Hwrite. left. rewrite <- setCached_write_through, Hput. done.
  - eapply Hwrite. right. rewrite <- setCached_write_through, Hput. done.
  - eapply Hwrite. left. rewrite <- setCachedBatch_write_through, Hput. done.
  - eapply Hwrite. right. rewrite <- setCachedBatch_write_through, Hput. done.
  - by apply enqueue_consistent.
  - by eapply timer_fire_consistent.
  - by eapply flush_resume_consistent.
Qed.

(** Every reachable state satisfies the invariant. *)
Lemma reachable_consistent s : reachable s → consistent s.
Proof.
  induction 1 as [cfg d|s s' _ IH Hstep].
  - split; simpl.
    + unfold items, open_items. simpl. rewrite map_to_list_empty. simpl.
      split; [split|]; simpl; [apply NoDup_nil_2|apply Forall_nil_2..].
    + intros key q Hq. by rewrite lookup_empty in Hq.
  - by eapply step_consistent.
Qed.

(** In a reachable state every open queue is well formed. *)
Lemma reachable_queue_ok s key :
  reachable s → queue_ok (promises s) (default [] (queues s !! key)).
Proof.
  intros Hcons%reachable_consistent.
  pose proof (consistent_open_texts s key Hcons) as Htexts.
  destruct Hcons as [Hok _].
  eapply waiters_ok_perm in Hok; [|apply (items_split s key)].
  apply waiters_ok_app in Hok as [[Hdis Hpend] _]. done.
Qed.

(** In a reachable state the waiters of every detached batch are
    pending and disjoint. *)
Lemma reachable_batch_ok s i b :
  reachable s → flushing s !! i = Some b →
  waiters_disjoint (b_queue b) ∧
  waiters_pending (b_queue b) (promises (set_flushing (delete i) s)).
Proof.
  intros [Hok _]%reachable_consistent Hb.
  eapply waiters_ok_perm in Hok; [|by apply items_detached].
  by apply waiters_ok_app in Hok as [[Hdis Hpend] _].
Qed.

(** A request made through [t8] follows a cache miss: the partition is
    in memory when the text is queued. *)
Lemma t8_miss_materialised txt lang ctx s p s' :
  t8 txt lang ctx s = Returned (inr p) s' →
  ∃ s0 cache,
    getCached txt lang ctx s = Returned None s0 ∧
    memCache s0 !! getCacheKey lang ctx s0 = Some cache ∧
    (p, s') = enqueue txt lang ctx s0.
Proof.
  unfold t8, bind at 1.
  destruct (getCached txt lang ctx s) as [[v|] s0|e s0|] eqn:Hget;
    [done| |done..].
  destruct (enqueue txt lang ctx s0) as [p0 s1] eqn:Henq.
  intros [= <- <-]. pose proof Hget as Hget0.
  unfold getCached, bind, ret in Hget.
  destruct (loadCache lang ctx s) as [cache s1'|e s1'|] eqn:Hload; [|done..].
  injection Hget as Hmiss <-.
  pose proof (loadCache_returned _ _ _ _ _ Hload) as ->.
  exists (set_memCache <[getCacheKey lang ctx s := cache]> s), cache.
  split; [done|]. split; [|done].
  unfold getCacheKey, getConfig. simpl. apply lookup_insert_eq.
Qed.

End InvariantSteps.

(** ** The coalescing queue in reachable states *)

Section ReachableStates.
Context `{Platform}.

Lemma getCached_absent txt lang ctx s e :
  memCache s !! getCacheKey lang ctx s = None →
  fs_readFile (disk s) (getCachePath lang ctx s) = Err e →
  err_code e = Some "ENOENT" →
  getCached txt lang ctx s
  = Returned None (set_memCache <[getCacheKey lang ctx s := []]> s).
Proof.
  intros Hm Hread Hcode. unfold getCached, bind at 1, loadCache.
  rewrite Hm. unfold try_catch, bind at 1, readFile. rewrite Hread.
  unfold loadCache_catch. by rewrite decide_True.
Qed.



(** C8. When a request for a new text brings the number of distinct
    texts of the collecting batch up to the size threshold, the flush
    timer of the partition is cancelled and the batch is detached at
    once; the next request of the partition opens a fresh batch. *)
Theorem size_threshold_flushes_at_once txt lang ctx s :
  let key := getQueueKey lang ctx in
  let queue := default [] (queues s !! key) in
  let p := length (promises s) in
  let batch := queue ++ [mkItem txt [p] p] in
  let s' := (enqueue txt lang ctx s).2 in
  reachable s →
  txt ∉ map text queue →
  (batchSize (config s) ≤ Z.of_nat (distinct_texts batch))%Z →
  timers s' !! key = None ∧
  queues s' !! key = None ∧
  flushing s' = flushing s ++ [mkBatch lang ctx batch (map text batch) (config s)] ∧
  ∀ txt',
    let p' := (enqueue txt' lang ctx s').1 in
    let s'' := (enqueue txt' lang ctx s').2 in
    let fresh_batch := [mkItem txt' [p'] p'] in
    (queues s'' !! key = Some fresh_batch ∧
     timers s'' !! key = Some (mkTimer lang ctx (batchDelay (config s))) ∧
     flushing s'' = flushing s')
    ∨
    (queues s'' !! key = None ∧
     flushing s'' = flushing s' ++ [mkBatch lang ctx fresh_batch [txt'] (config s)]).
Proof.
  cbv zeta. intros Hreach Hnew Hsize.
  apply enqueue_at_threshold; try done.
  by destruct (reachable_queue_ok s (getQueueKey lang ctx) Hreach) as [? _].
Qed.

End ReachableStates.

(** ** Concrete executions *)

Section Concrete.
#[local] Existing Instance MemPlatform.



(** C2, counterexample: on a read-only store a [put] fails with the
    store's error, the file is not written, and the in-memory partition
    has changed: it holds the new pair, which [get] now returns. *)
Lemma write_failure_changes_memory :
  on_return (getCached "Hello" "fr" "default" fresh_read_only) (fun _ s =>
    on_throw (setCached "Hello" "Bonjour" "fr" "default" s) (fun e s' =>
      e = EACCES "./locales/fr" ∧
      memCache s !! "./locales:fr:default" = Some [] ∧
      memCache s' !! "./locales:fr:default" = Some [("Hello", "Bonjour")] ∧
      files (disk s') !! "./locales/fr/default.json" = None ∧
      on_return (getCached "Hello" "fr" "default" s')
        (fun r _ => r = Some "Bonjour"))).
Proof. vm_compute. repeat split; reflexivity. Qed.

Lemma write_failure_keeps_upsert_witness :
  on_throw (setCached "Hello" "Bonjour" "fr" "default" fresh_read_only)
    (fun e s' => e = EACCES "./locales/fr" ∧
       memCache s' !! "./locales:fr:default" = Some [("Hello", "Bonjour")])
  ∧
  on_throw (setCachedBatch [("Hello", "Bonjour")] "fr" "default" fresh_read_only)
    (fun e s' => e = EACCES "./locales/fr" ∧
       memCache s' !! "./locales:fr:default" = Some [("Hello", "Bonjour")]).
Proof.
  assert (on_return (loadCache "fr" "default" fresh_read_only)
            (fun cache _ => cache = [])) as Hok by (vm_compute; reflexivity).
  destruct (loadCache "fr" "default" fresh_read_only)
    as [cache s1| |] eqn:Hload; [|destruct Hok..].
  simpl in Hok. subst cache.
  destruct (write_failure_keeps_upsert "fr" "default" fresh_read_only []
              s1 (EACCES "./locales/fr") (mkMemFS ∅ true)) as [Hput Hbatch];
    [vm_compute; set_solver|exact Hload|].
  split.
  - destruct (Hput "Hello" "Bonjour") as (s' & Hs' & Hm & _); [reflexivity|].
    rewrite Hs'. split; [reflexivity|exact Hm].
  - destruct (Hbatch [("Hello", "Bonjour")]) as (s' & Hs' & Hm & _);
      [reflexivity|].
    rewrite Hs'. split; [reflexivity|exact Hm].
Defined.

Lemma loadCache_absent_or_corrupt_witness :
  loadCache "fr" "default" fresh
    = Returned [] (set_memCache <["./locales:fr:default" := []]> fresh)
  ∧
  loadCache "fr" "default" fresh_corrupt
    = Thrown (new_Error ("Failed to load cache from ./locales/fr/default.json"
                         +:+ ": Unexpected token in JSON")) fresh_corrupt.
Proof.
  split.
  - apply (proj1 (loadCache_absent_or_corrupt "fr" "default" fresh eq_refl)
             (ENOENT "./locales/fr/default.json")); reflexivity.
  - apply (proj2 (loadCache_absent_or_corrupt "fr" "default" fresh_corrupt
                    eq_refl) "{oops" "Unexpected token in JSON"); reflexivity.
Defined.

(** C1, the failing execution: two callers ask for the same text, the
    timer fires and the generator call fails.  The caller that opened
    the entry is rejected with the error; the caller that joined it
    stays pending, although the batch is gone. *)
Lemma failed_flush_leaves_piggybacked_caller_pending :
  queues hello_twice !! "fr:default" = Some [mkItem "Hello" [0; 1] 0] ∧
  match timer_fire "fr:default" hello_twice with
  | Some s3 =>
      match flush_resume 0 (Err unavailable) s3 with
      | Some s4 =>
          promises s4 = [Rejected unavailable; Pending] ∧
          flushing s4 = [] ∧ queues s4 !! "fr:default" = None ∧
          timers s4 !! "fr:default" = None
      | None => False
      end
  | None => False
  end.
Proof. vm_compute. repeat split; reflexivity. Qed.

(** C6, the failing execution: with the bound [0] the selector returns
    every pair instead of none. *)
Lemma selectExamples_zero_returns_everything :
  selectExamples [("Hello", "Bonjour"); ("Bye", "Au revoir")] 0
  = [("Hello", "Bonjour"); ("Bye", "Au revoir")].
Proof. reflexivity. Qed.


Lemma reachable_fresh : reachable fresh.
Proof. apply reachable_initial. Qed.

Lemma reachable_with_batchSize n s : reachable s → reachable (with_batchSize n s).
Proof. intros Hs. eapply reachable_step; [exact Hs|apply step_configure]. Qed.

Lemma reachable_enqueue txt lang ctx s :
  reachable s → reachable (enqueue txt lang ctx s).2.
Proof. intros Hs. eapply reachable_step; [exact Hs|apply step_enqueue]. Qed.

Lemma reachable_loaded : reachable loaded.
Proof.
  eapply reachable_step; [apply reachable_fresh|].
  apply (step_getCached fresh "Hello" "fr" "default" None).
  apply (getCached_absent "Hello" "fr" "default" fresh
           (ENOENT "./locales/fr/default.json")); reflexivity.
Qed.




Lemma size_threshold_flushes_at_once_witness :
  timers (enqueue "Three" "fr" "default" one_two).2 !! "fr:default" = None ∧
  queues (enqueue "Three" "fr" "default" one_two).2 !! "fr:default" = None ∧
  flushing (enqueue "Three" "fr" "default" one_two).2
    = [mkBatch "fr" "default"
         [mkItem "One" [0] 0; mkItem "Two" [1] 1; mkItem "Three" [2] 2]
         ["One"; "Two"; "Three"] (config one_two)].
Proof.
  destruct (size_threshold_flushes_at_once "Three" "fr" "default" one_two)
    as (Htimer & Hqueue & Hflushing & _).
  - do 2 apply reachable_enqueue. apply reachable_with_batchSize, reachable_fresh.
  - vm_compute. set_solver.
  - vm_compute. discriminate.
  - split; [exact Htimer|]. split; [exact Hqueue|]. exact Hflushing.
Defined.

(** C5, counterexample: two partitions that differ in their storage
    root only.  The second request joins the entry that the first one
    opened: both callers wait in one batch. *)
Lemma distinct_storage_roots_share_a_batch :
  fr_default ≠ fr_default_elsewhere ∧
  queues (request fr_default_elsewhere "Hello"
            (request fr_default "Hello" fresh).2).2 !! "fr:default"
  = Some [mkItem "Hello"
            [(request fr_default "Hello" fresh).1;
             (request fr_default_elsewhere "Hello"
                (request fr_default "Hello" fresh).2).1]
            (request fr_default "Hello" fresh).1].
Proof. split; [done|]. vm_compute. reflexivity. Qed.

Lemma partitions_with_distinct_keys_are_isolated_witness :
  getQueueKey "fr" "default" ≠ getQueueKey "fr" "marketing" ∧
  queues (request fr_marketing "Hello"
            (request fr_default "Hello" fresh).2).2 !! "fr:default"
  = queues (request fr_default "Hello" fresh).2 !! "fr:default".
Proof.
  assert (colon_free "fr") as Hfr.
  { unfold colon_free. simpl. set_solver. }
  destruct (partitions_with_distinct_keys_are_isolated fr_default fr_marketing
              "Hello" fresh Hfr Hfr) as [Hqueues _].
  destruct Hqueues as (Hkeys & _ & _ & Hq & _); [done|].
  split; [exact Hkeys|exact Hq].
Defined.

End Concrete.

(** * Further properties *)

(** ** The cache layer, continued *)

Section CacheMore.
Context `{Platform}.

Lemma getCacheKey_config lang ctx (s t : State) :
  config s = config t → getCacheKey lang ctx s = getCacheKey lang ctx t.
Proof. unfold getCacheKey, getConfig. by intros ->. Qed.

Lemma getCachePath_config lang ctx (s t : State) :
  config s = config t → getCachePath lang ctx s = getCachePath lang ctx t.
Proof. unfold getCachePath, getConfig. by intros ->. Qed.

(** What [getCached] answers follows from what [loadCache] does. *)
Lemma getCached_cases txt lang ctx s :
  getCached txt lang ctx s =
  match loadCache lang ctx s with
  | Returned cache s1 => Returned (or_null cache txt) s1
  | Thrown e s1 => Thrown e s1
  | Waiting => Waiting
  end.
Proof. unfold getCached, bind, ret. by destruct (loadCache lang ctx s). Qed.

Lemma getCached_hit txt lang ctx s cache :
  memCache s !! getCacheKey lang ctx s = Some cache →
  getCached txt lang ctx s = Returned (or_null cache txt) s.
Proof. intros Hm. by rewrite getCached_cases, (loadCache_hit _ _ _ _ Hm). Qed.

Lemma or_null_Some cache txt v :
  or_null cache txt = Some v ↔ obj_get cache txt = Some v ∧ v ≠ "".
Proof.
  unfold or_null, truthy_opt, truthy.
  destruct (obj_get cache txt) as [w|]; [|by split; [|intros [? _]]].
  case_bool_decide as Hw; simpl.
  - subst w. split; [done|]. by intros [[= <-] ?].
  - split; [by intros [= <-]|by intros [? _]].
Qed.

Lemma or_null_obj_set cache txt v t :
  or_null (obj_set cache txt v) t =
  if decide (txt = t) then (if truthy v then Some v else None)
  else or_null cache t.
Proof.
  unfold or_null. rewrite obj_get_obj_set. by case_decide.
Qed.

(** After a successful write the partition answers from the updated
    mapping. *)
Lemma write_through_answers f lang ctx s s' :
  write_through f lang ctx s = Returned () s' →
  ∃ cache s1,
    loadCache lang ctx s = Returned cache s1 ∧
    config s' = config s ∧
    ∀ t, getCached t lang ctx s' = Returned (or_null (f cache) t) s'.
Proof.
  intros Hw. apply write_through_returned in Hw as (cache & d & Hload & _ & ->).
  eexists cache, _. split; [exact Hload|]. split; [done|].
  intros t. apply getCached_hit. simpl.
  by rewrite lookup_insert_eq.
Qed.

(** X1. A [put] changes the answer for its own text only. *)
Theorem put_leaves_other_texts txt v lang ctx s s' t r s1 :
  setCached txt v lang ctx s = Returned () s' →
  getCached t lang ctx s = Returned r s1 →
  t ≠ txt →
  getCached t lang ctx s' = Returned r s'.
Proof.
  intros Hput Hget Hne. rewrite setCached_write_through in Hput.
  apply write_through_answers in Hput as (cache & s0 & Hload & _ & Hans).
  rewrite getCached_cases, Hload in Hget. injection Hget as <- _.
  rewrite Hans, or_null_obj_set. by rewrite decide_False.
Qed.


(** X3. A partition that cannot be loaded is left alone: every operation on
    it fails with the load error, and changes nothing. *)
Theorem unloadable_partition_is_left_alone lang ctx s e s1 :
  loadCache lang ctx s = Thrown e s1 →
  getCachePath lang ctx s ∉ locks s →
  (∀ txt, getCached txt lang ctx s = Thrown e s) ∧
  getAllCached lang ctx s = Thrown e s ∧
  (∀ txt v, setCached txt v lang ctx s = Thrown e s) ∧
  (∀ entries, setCachedBatch entries lang ctx s = Thrown e s) ∧
  (∀ txt, t8 txt lang ctx s = Thrown e s).
Proof.
  intros Hload Hlock.
  pose proof (loadCache_thrown _ _ _ _ _ Hload) as ->.
  assert (∀ txt, getCached txt lang ctx s = Thrown e s) as Hget.
  { intros txt. by rewrite getCached_cases, Hload. }
  assert (∀ f, write_through f lang ctx s = Thrown e s) as Hwrite.
  { intros f. rewrite write_through_cases. cbv zeta.
    rewrite decide_False by done. by rewrite Hload. }
  split; [exact Hget|]. split.
  { unfold getAllCached, bind. by rewrite Hload. }
  split; [intros txt v; by rewrite setCached_write_through|].
  split; [intros entries; by rewrite setCachedBatch_write_through|].
  intros txt. unfold t8, bind. by rewrite Hget.
Qed.

Lemma write_through_completes f lang ctx s :
  getCachePath lang ctx s ∉ locks s →
  ∃ s', completes_in (write_through f lang ctx s) s' ∧
        locks s' = locks s ∧ config s' = config s.
Proof.
  intros Hlock. rewrite write_through_cases. cbv zeta.
  rewrite decide_False by done.
  destruct (loadCache lang ctx s) as [cache s1|e s1|] eqn:Hload.
  - destruct (atomic_write _ _ _) as [[[]|e] d]; by eexists.
  - by eexists.
  - by apply loadCache_not_waiting in Hload.
Qed.

(** X4. A write whose lock is free runs to completion, and whether it
    returns or throws the lock is released. *)
Theorem write_releases_lock lang ctx s :
  getCachePath lang ctx s ∉ locks s →
  (∀ txt v, ∃ s', completes_in (setCached txt v lang ctx s) s' ∧
                  locks s' = locks s)
  ∧
  (∀ entries, ∃ s', completes_in (setCachedBatch entries lang ctx s) s' ∧
                    locks s' = locks s).
Proof.
  intros Hlock. split.
  - intros txt v. rewrite setCached_write_through.
    destruct (write_through_completes (fun cache => obj_set cache txt v)
                lang ctx s Hlock) as (s' & ? & ? & _). by exists s'.
  - intros entries. rewrite setCachedBatch_write_through.
    destruct (write_through_completes (fun cache => Object_assign cache entries)
                lang ctx s Hlock) as (s' & ? & ? & _). by exists s'.
Qed.


(** X6. Once a partition has been touched it is answered from memory:
    whatever the store holds afterwards, a [get] answers the same. *)
Theorem loaded_partition_answers_from_memory txt lang ctx s r s1 d :
  getCached txt lang ctx s = Returned r s1 →
  getCached txt lang ctx (set_disk (fun _ => d) s1)
  = Returned r (set_disk (fun _ => d) s1).
Proof.
  intros Hget. rewrite getCached_cases in Hget.
  destruct (loadCache lang ctx s) as [cache s0|e s0|] eqn:Hload; [|done..].
  injection Hget as <- ->.
  apply loadCache_returned in Hload as ->.
  apply getCached_hit. simpl. by rewrite lookup_insert_eq.
Qed.

(** X7. A write to one partition, successful or not, leaves the answers of
    a loaded partition with another key as they were. *)
Theorem write_leaves_other_partitions lang ctx lang' ctx' s s' cache :
  getCacheKey lang' ctx' s ≠ getCacheKey lang ctx s →
  memCache s !! getCacheKey lang' ctx' s = Some cache →
  (∃ txt v, completes_in (setCached txt v lang ctx s) s') ∨
  (∃ entries, completes_in (setCachedBatch entries lang ctx s) s') →
  ∀ t, getCached t lang' ctx' s = Returned (or_null cache t) s ∧
       getCached t lang' ctx' s' = Returned (or_null cache t) s'.
Proof.
  intros Hkey Hm Hdone t. split; [by apply getCached_hit|].
  assert (∃ f, completes_in (write_through f lang ctx s) s') as [f Hf].
  { destruct Hdone as [(txt & v & Hd)|(entries & Hd)]; eexists; exact Hd. }
  apply getCached_hit.
  rewrite write_through_cases in Hf. cbv zeta in Hf.
  destruct (decide _); [done|].
  destruct (loadCache lang ctx s) as [c s0|e s0|] eqn:Hload; [| |done].
  - destruct (atomic_write _ _ _) as [[[]|e] d]; simpl in Hf; subst s';
      simpl; by rewrite lookup_insert_ne.
  - simpl in Hf. by subst s'.
Qed.

End CacheMore.

(** ** The atomic write *)

Lemma length_append (a b : string) :
  String.length (a +:+ b) = String.length a + String.length b.
Proof. induction a as [|c a IH]; simpl; [done|]. by rewrite IH. Qed.

Lemma tmp_path_differs (path : string) : path +:+ ".tmp" ≠ path.
Proof.
  intros Heq. apply (f_equal String.length) in Heq.
  rewrite length_append in Heq. simpl in Heq. lia.
Qed.

Section AtomicWrite.
Context `{Platform}.

(** The target of [saveCache] is touched by the final rename only: when
    one of the three file-system calls fails, the file reads as
    before. *)
Lemma atomic_write_failed path content d e d' :
  (∀ d0 dir r d1, fs_mkdir d0 dir = (r, d1) →
                  fs_readFile d1 path = fs_readFile d0 path) →
  (∀ d0 p c r d1, fs_writeFile d0 p c = (r, d1) → p ≠ path →
                  fs_readFile d1 path = fs_readFile d0 path) →
  (∀ d0 from e0 d1, fs_rename d0 from path = (Err e0, d1) →
                    fs_readFile d1 path = fs_readFile d0 path) →
  atomic_write path content d = (Err e, d') →
  fs_readFile d' path = fs_readFile d path.
Proof.
  intros Hmkdir Hwrite Hrename. unfold atomic_write.
  destruct (fs_mkdir d (path_dirname path)) as [[[]|e1] d1] eqn:H1.
  - destruct (fs_writeFile d1 (path +:+ ".tmp") content)
      as [[[]|e2] d2] eqn:H2.
    + intros H3. rewrite (Hrename _ _ _ _ H3).
      rewrite (Hwrite _ _ _ _ _ H2) by apply tmp_path_differs.
      by rewrite (Hmkdir _ _ _ _ H1).
    + intros [= _ <-].
      rewrite (Hwrite _ _ _ _ _ H2) by apply tmp_path_differs.
      by rewrite (Hmkdir _ _ _ _ H1).
  - intros [= _ <-]. by rewrite (Hmkdir _ _ _ _ H1).
Qed.

(** X8. A write that fails leaves the file of the partition as it was, on
    a file system where creating a directory, writing another file, and
    a rename that fails do not change what the file reads as: the
    file is only ever replaced by the rename. *)
Theorem failed_write_keeps_the_file lang ctx s e s' :
  let path := getCachePath lang ctx s in
  (∀ d0 dir r d1, fs_mkdir d0 dir = (r, d1) →
                  fs_readFile d1 path = fs_readFile d0 path) →
  (∀ d0 p c r d1, fs_writeFile d0 p c = (r, d1) → p ≠ path →
                  fs_readFile d1 path = fs_readFile d0 path) →
  (∀ d0 from e0 d1, fs_rename d0 from path = (Err e0, d1) →
                    fs_readFile d1 path = fs_readFile d0 path) →
  (∃ txt v, setCached txt v lang ctx s = Thrown e s') ∨
  (∃ entries, setCachedBatch entries lang ctx s = Thrown e s') →
  fs_readFile (disk s') path = fs_readFile (disk s) path.
Proof.
  intros path Hmkdir Hwrite Hrename Hfail.
  assert (∃ f, write_through f lang ctx s = Thrown e s') as [f Hf].
  { destruct Hfail as [(txt & v & Hd)|(entries & Hd)]; eexists; exact Hd. }
  rewrite write_through_cases in Hf. cbv zeta in Hf. fold path in Hf.
  destruct (decide _); [done|].
  destruct (loadCache lang ctx s) as [cache s1|e1 s1|]; [| |done].
  - destruct (atomic_write path _ (disk s)) as [[[]|e2] d] eqn:Hw; [done|].
    injection Hf as _ <-. simpl.
    by eapply atomic_write_failed.
  - by injection Hf as _ <-.
Qed.

End AtomicWrite.

(** ** Timers and detached batches *)

Section Scheduling.
Context `{Platform}.

(** The rest of a flush changes the cache layer, the promises and the
    trace only. *)
Lemma flush_body_frame response b s s' :
  flush_body response b s = Returned () s' →
  config s' = config s ∧ locks s' = locks s ∧ queues s' = queues s ∧
  timers s' = timers s ∧ flushing s' = flushing s.
Proof.
  rewrite flush_body_cases. cbv zeta.
  destruct (loadCache (b_lang b) (b_ctx b) s) as [cache s1|e s1|];
    [| |done].
  - destruct response as [tr|e].
    + destruct (decide _); [done|].
      destruct (atomic_write _ _ _) as [[[]|e] d]; intros [= <-].
      * match goal with |- context [fold_left (settle_item tr) _ ?s0] =>
          destruct (fold_settle_frame tr (b_queue b) s0)
            as (-> & _ & -> & _ & -> & -> & ->)
        end. done.
      * match goal with |- context [reject_all _ e ?s0] =>
          destruct (reject_all_frame (b_queue b) e s0)
            as (-> & _ & -> & _ & -> & -> & ->)
        end. done.
    + intros [= <-].
      match goal with |- context [reject_all _ e ?s0] =>
        destruct (reject_all_frame (b_queue b) e s0)
          as (-> & _ & -> & _ & -> & -> & ->)
      end. done.
  - intros [= <-].
    destruct (reject_all_frame (b_queue b) e s)
      as (-> & _ & -> & _ & -> & -> & ->). done.
Qed.

Lemma flush_resume_frame i response s s' :
  flush_resume i response s = Some s' →
  ∃ b, flushing s !! i = Some b ∧
       flush_body response b (set_flushing (delete i) s) = Returned () s' ∧
       config s' = config s ∧ locks s' = locks s ∧ queues s' = queues s ∧
       timers s' = timers s ∧ flushing s' = delete i (flushing s).
Proof.
  unfold flush_resume. destruct (flushing s !! i) as [b|]; [|done].
  destruct (flush_body _ _ _) as [[] s1| |] eqn:Hbody; [|done..].
  intros [= <-]. exists b. split; [done|]. split; [done|].
  by apply flush_body_frame in Hbody as (-> & -> & -> & -> & ->).
Qed.

(** The steps that are neither a request, nor a timer, nor a flush
    leave the queues, the timers, the batches and the promises alone. *)
Lemma step_cases s s' :
  step s s' →
  (queues s' = queues s ∧ timers s' = timers s ∧
   flushing s' = flushing s ∧ promises s' = promises s ∧
   trace s' = trace s ∨
   queues s' = queues s ∧ timers s' = timers s ∧
   flushing s' = flushing s ∧ promises s' = promises s ∧
   config s' = config s)
  ∨ (∃ txt lang ctx, s' = (enqueue txt lang ctx s).2)
  ∨ (∃ key, timer_fire key s = Some s')
  ∨ (∃ i response, flush_resume i response s = Some s').
Proof.
  assert (∀ f lang ctx t,
            completes_in (write_through f lang ctx s) t →
            queues t = queues s ∧ timers t = timers s ∧
            flushing t = flushing s ∧ promises t = promises s ∧
            config t = config s) as Hwrite.
  { intros f lang ctx t. rewrite write_through_cases. cbv zeta.
    destruct (decide _); [done|].
    destruct (loadCache lang ctx s) as [cache s1|e s1|]; [| |done].
    - destruct (atomic_write _ _ _) as [[[]|e] d]; by intros <-.
    - by intros <-. }
  assert (∀ lang ctx cache s1,
            loadCache lang ctx s = Returned cache s1 →
            queues s1 = queues s ∧ timers s1 = timers s ∧
            flushing s1 = flushing s ∧ promises s1 = promises s ∧
            trace s1 = trace s) as Hload.
  { intros lang ctx cache s1 Hl. by apply loadCache_returned in Hl as ->. }
  intros [partial|txt lang ctx r s1 Hget|lang ctx r s1 Hget
         |txt v lang ctx s1 Hput|txt v lang ctx e s1 Hput
         |entries lang ctx s1 Hput|entries lang ctx e s1 Hput
         |txt lang ctx|key s1 Htimer|i response s1 Hflush].
  - left. by left.
  - left. left. rewrite getCached_cases in Hget.
    destruct (loadCache lang ctx s) as [cache s0|e s0|] eqn:Hl; [|done..].
    injection Hget as _ <-. by eapply Hload.
  - left. left. unfold getAllCached, bind, ret in Hget.
    destruct (loadCache lang ctx s) as [cache s0|e s0|] eqn:Hl; [|done..].
    injection Hget as _ <-. by eapply Hload.
  - left. right. eapply Hwrite. by rewrite <- setCached_write_through, Hput.
  - left. right. eapply Hwrite. by rewrite <- setCached_write_through, Hput.
  - left. right. eapply Hwrite.
    by rewrite <- setCachedBatch_write_through, Hput.
  - left. right. eapply Hwrite.
    by rewrite <- setCachedBatch_write_through, Hput.
  - right. left. by exists txt, lang, ctx.
  - right. right. left. by exists key.
  - right. right. right. by exists i, response.
Qed.

Lemma scheduled_frame s s' :
  queues s' = queues s → timers s' = timers s → flushing s' = flushing s →
  scheduled s → scheduled s'.
Proof. intros Hq Ht Hf. unfold scheduled, timers_ok. by rewrite Hq, Ht, Hf. Qed.

(** What a request does to the queue, the timer and the batches of its
    key, when every open queue has its timer. *)
Lemma enqueue_outcomes txt lang ctx s :
  let key := getQueueKey lang ctx in
  let q0 := default [] (queues s !! key) in
  let p := length (promises s) in
  let s' := (enqueue txt lang ctx s).2 in
  (∃ i x, q0 !! i = Some x ∧ text x = txt ∧
          queues s' = <[key := <[i := mkItem (text x) (resolve x ++ [p])
                                          (reject x)]> q0]> (queues s) ∧
          timers s' = timers s ∧ flushing s' = flushing s)
  ∨
  ((txt ∉ map text q0) ∧
   (batchSize (config s) ≤ Z.of_nat (length q0) + 1)%Z ∧
   queues s' = delete key (queues s) ∧
   timers s' = delete key (timers s) ∧
   flushing s' = flushing s ++
     [mkBatch lang ctx (q0 ++ [mkItem txt [p] p])
        (Array_from_Set (map text (q0 ++ [mkItem txt [p] p]))) (config s)])
  ∨
  ((txt ∉ map text q0) ∧
   (Z.of_nat (length q0) + 1 < batchSize (config s))%Z ∧
   queues s' = <[key := q0 ++ [mkItem txt [p] p]]> (queues s) ∧
   timers s' = match timers s !! key with
               | Some _ => timers s
               | None => <[key := mkTimer lang ctx (batchDelay (config s))]>
                           (timers s)
               end ∧
   flushing s' = flushing s).
Proof.
  intros key q0 p s'. subst s'. rewrite enqueue_eq. cbv zeta.
  fold key q0 p.
  destruct (list_find _ q0) as [[i x]|] eqn:Hfind; simpl.
  - apply list_find_Some in Hfind as (Hi & Ht & _).
    left. by exists i, x.
  - apply find_text_None in Hfind. right.
    destruct (_ <=? _)%Z eqn:Hle.
    + left. apply Z.leb_le in Hle. rewrite length_app in Hle. simpl in Hle.
      split; [done|]. split; [lia|].
      erewrite flush_eq; [|simpl; apply lookup_insert_eq|by destruct q0].
      simpl. by rewrite delete_insert_eq.
    + right. apply Z.leb_gt in Hle. rewrite length_app in Hle. simpl in Hle.
      split; [done|]. split; [lia|].
      by destruct (timers s !! key).
Qed.

Lemma open_queue_default (s : State) key i (x : QueueItem) :
  default [] (queues s !! key) !! i = Some x →
  queues s !! key = Some (default [] (queues s !! key)).
Proof. by destruct (queues s !! key). Qed.

Lemma enqueue_scheduled txt lang ctx s :
  consistent s → scheduled s → scheduled (enqueue txt lang ctx s).2.
Proof.
  intros Hcons [[HQ HT] HB].
  pose proof (consistent_open_texts s (getQueueKey lang ctx) Hcons) as Hnd.
  destruct (enqueue_outcomes txt lang ctx s)
    as [(i & x & Hi & Ht & Hq & Htm & Hf)
       |[(Hnew & Hle & Hq & Htm & Hf)|(Hnew & Hlt & Hq & Htm & Hf)]];
    set (key := getQueueKey lang ctx) in *;
    set (q0 := default [] (queues s !! key)) in *;
    set (s' := (enqueue txt lang ctx s).2) in *.
  - pose proof (open_queue_default _ _ _ _ Hi) as Hopen. fold q0 in Hopen.
    split; [split|by rewrite Hf].
    + intros key' q. rewrite Hq, Htm, lookup_insert.
      destruct (decide (key = key')) as [<-|Hne]; [|by apply HQ].
      intros [= <-]. split; [|by eapply HQ].
      intros Hnil. apply (f_equal length) in Hnil.
      rewrite length_insert in Hnil. apply lookup_lt_Some in Hi.
      simpl in Hnil. lia.
    + intros key' t. rewrite Hq, Htm. intros Hk.
      destruct (HT _ _ Hk) as [Hkey Hsome]. split; [done|].
      rewrite lookup_insert. by destruct (decide (key = key')).
  - split; [split|].
    + intros key' q. rewrite Hq, Htm.
      intros [Hne Hk]%lookup_delete_Some.
      rewrite lookup_delete_ne by done. by apply HQ.
    + intros key' t. rewrite Hq, Htm.
      intros [Hne Hk]%lookup_delete_Some.
      rewrite lookup_delete_ne by done. by apply HT.
    + rewrite Hf. apply Forall_app. split; [done|].
      apply Forall_singleton.
      assert (NoDup (map text (q0 ++ [mkItem txt [length (promises s)]
                                        (length (promises s))]))) as Hnd'.
      { rewrite map_app. simpl. apply NoDup_app. split; [done|].
        split; [|apply NoDup_singleton].
        intros t Ht Ht'. apply list_elem_of_singleton in Ht' as ->. done. }
      split; simpl; [by destruct q0|]. split; [done|].
      by apply Array_from_Set_NoDup.
  - split; [split|by rewrite Hf].
    + intros key' q. rewrite Hq, Htm, lookup_insert.
      destruct (decide (key = key')) as [<-|Hne].
      * intros [= <-]. split; [by destruct q0|].
        destruct (timers s !! key) eqn:Hk; [by rewrite Hk|].
        by rewrite lookup_insert_eq.
      * intros Hk. destruct (HQ _ _ Hk) as [Hnil Hsome]. split; [done|].
        destruct (timers s !! key); [done|]. by rewrite lookup_insert_ne.
    + intros key' t. rewrite Hq, Htm. intros Hk.
      assert (timers s !! key' = Some t ∨
              key' = key ∧ t = mkTimer lang ctx (batchDelay (config s)))
        as [Hold|[-> ->]].
      { destruct (timers s !! key) eqn:Hkey; [by left|].
        rewrite lookup_insert in Hk.
        destruct (decide (key = key')) as [<-|Hne]; [right|by left].
        by injection Hk as <-. }
      * destruct (HT _ _ Hold) as [Hkey Hsome]. split; [done|].
        rewrite lookup_insert. by destruct (decide (key = key')).
      * split; [done|]. by rewrite lookup_insert_eq.
Qed.

(** A timer that fires detaches the whole queue of its key. *)
Lemma timer_fire_outcome key s q :
  timers_ok s →
  queues s !! key = Some q →
  ∃ t, timers s !! key = Some t ∧
       timer_fire key s
       = Some (set_flushing
                 (fun bs => bs ++ [mkBatch (t_lang t) (t_ctx t) q
                                     (Array_from_Set (map text q)) (config s)])
                 (set_queues (delete key) (set_timers (delete key) s))).
Proof.
  intros [HQ HT] Hq. destruct (HQ _ _ Hq) as [Hnil [t Ht]].
  exists t. split; [done|]. unfold timer_fire. rewrite Ht.
  destruct (HT _ _ Ht) as [Hkey _].
  erewrite flush_eq; [|simpl; rewrite Hkey; exact Hq|done].
  by rewrite Hkey.
Qed.

Lemma timer_fire_scheduled key s s' :
  consistent s → scheduled s → timer_fire key s = Some s' → scheduled s'.
Proof.
  intros Hcons [[HQ HT] HB] Hfire.
  assert (∃ q, queues s !! key = Some q) as [q Hq].
  { unfold timer_fire in Hfire.
    destruct (timers s !! key) as [t|] eqn:Ht; [|done].
    by destruct (HT _ _ Ht) as [_ [q Hq]]; exists q. }
  destruct (timer_fire_outcome key s q (conj HQ HT) Hq) as (t & Ht & Hs').
  rewrite Hs' in Hfire. injection Hfire as <-.
  split; [split|]; simpl.
  - intros key' q'. intros [Hne Hk]%lookup_delete_Some.
    rewrite lookup_delete_ne by done. by apply HQ.
  - intros key' t'. intros [Hne Hk]%lookup_delete_Some.
    rewrite lookup_delete_ne by done. by apply HT.
  - apply Forall_app. split; [done|]. apply Forall_singleton.
    destruct Hcons as [_ Htexts]. pose proof (Htexts _ _ Hq) as Hnd.
    split; simpl; [by apply HQ in Hq as [? _]|]. split; [done|].
    by apply Array_from_Set_NoDup.
Qed.

Lemma flush_resume_scheduled i response s s' :
  scheduled s → flush_resume i response s = Some s' → scheduled s'.
Proof.
  intros [HTm HB] Hres.
  apply flush_resume_frame in Hres as (b & Hb & _ & _ & _ & Hq & Ht & Hf).
  split.
  - unfold timers_ok. by rewrite Hq, Ht.
  - rewrite Hf. rewrite delete_take_drop.
    rewrite <- (take_drop i (flushing s)) in HB.
    apply Forall_app in HB as [HB1 HB2]. apply Forall_app. split; [done|].
    by apply Forall_drop with (n := 1) in HB2; rewrite drop_drop in HB2;
      rewrite Nat.add_1_r in HB2.
Qed.

Lemma step_scheduled s s' :
  consistent s → scheduled s → step s s' → scheduled s'.
Proof.
  intros Hcons Hsch Hstep.
  destruct (step_cases _ _ Hstep)
    as [[(Hq & Ht & Hf & _)|(Hq & Ht & Hf & _)]
       |[(txt & lang & ctx & ->)|[(key & Hfire)|(i & response & Hres)]]].
  - by eapply scheduled_frame.
  - by eapply scheduled_frame.
  - by apply enqueue_scheduled.
  - by eapply timer_fire_scheduled.
  - by eapply flush_resume_scheduled.
Qed.

Lemma reachable_scheduled s : reachable s → scheduled s.
Proof.
  induction 1 as [cfg d|s s' Hs IH Hstep].
  - split; [split|]; simpl; [intros ??|intros ??|by apply Forall_nil];
      by rewrite lookup_empty.
  - eapply step_scheduled; [|exact IH|exact Hstep].
    by apply reachable_consistent.
Qed.

End Scheduling.

(** ** Requests *)

Section Requests.
Context `{Platform}.


Lemma elem_of_open_items (m : gmap string (list QueueItem)) key q item :
  m !! key = Some q → item ∈ q → item ∈ open_items m.
Proof.
  intros Hq Hin. unfold open_items. apply list_elem_of_bind.
  exists (key, q). split; [done|]. by apply elem_of_map_to_list.
Qed.

(** X10. No request is dropped.  After a request the caller's promise is
    pending and waits in exactly one item, which carries its text: in
    the open queue of its key, whose timer is armed, or in the batch
    that the request has just detached for its language and context. *)
Theorem request_is_registered txt lang ctx s :
  let key := getQueueKey lang ctx in
  let p := (enqueue txt lang ctx s).1 in
  let s' := (enqueue txt lang ctx s).2 in
  reachable s →
  promises s' !! p = Some Pending ∧
  ∃ item,
    text item = txt ∧ p ∈ resolve item ∧
    ((∃ q, queues s' !! key = Some q ∧ item ∈ q ∧
           is_Some (timers s' !! key))
     ∨
     (∃ b, flushing s' = flushing s ++ [b] ∧
           b_lang b = lang ∧ b_ctx b = ctx ∧ item ∈ b_queue b)) ∧
    ∀ item', item' ∈ items s' → p ∈ resolve item' → item' = item.
Proof.
  intros key p s' Hreach. subst key p s'.
  assert (reachable (enqueue txt lang ctx s).2) as Hreach'.
  { eapply reachable_step; [exact Hreach|apply step_enqueue]. }
  pose proof (reachable_scheduled _ Hreach') as [[HQ _] _].
  pose proof (reachable_consistent _ Hreach') as [[[Hnd _] _] _].
  destruct (enqueue_frame txt lang ctx s) as (Hp & Hps & _).
  rewrite Hp, Hps. clear Hp Hps.
  split; [apply pending_fresh|].
  set (p := length (promises s)).
  assert (∃ item, text item = txt ∧ p ∈ resolve item ∧
            ((∃ q, queues (enqueue txt lang ctx s).2 !! getQueueKey lang ctx
                   = Some q ∧ item ∈ q) ∨
             (∃ b, flushing (enqueue txt lang ctx s).2 = flushing s ++ [b] ∧
                   b_lang b = lang ∧ b_ctx b = ctx ∧ item ∈ b_queue b)))
    as (item & Htext & Hwait & Hwhere).
  { destruct (enqueue_outcomes txt lang ctx s)
      as [(i & x & Hi & Hx & Hq' & _)
         |[(_ & _ & _ & _ & Hf)|(_ & _ & Hq' & _)]];
      fold p in Hq' || fold p in Hf.
    - exists (mkItem (text x) (resolve x ++ [p]) (reject x)).
      split; [done|]. split; [simpl; apply elem_of_app; right; by left|]. left.
      eexists. split; [rewrite Hq'; apply lookup_insert_eq|].
      apply list_elem_of_lookup. exists i.
      apply list_lookup_insert_eq. by eapply lookup_lt_Some.
    - exists (mkItem txt [p] p).
      split; [done|]. split; [by left|]. right.
      eexists. split; [exact Hf|]. simpl.
      split; [done|]. split; [done|]. apply elem_of_app. right. by left.
    - exists (mkItem txt [p] p).
      split; [done|]. split; [by left|]. left.
      eexists. split; [rewrite Hq'; apply lookup_insert_eq|].
      apply elem_of_app. right. by left. }
  exists item. split; [done|]. split; [done|]. split.
  - destruct Hwhere as [(q & Hq & Hin)|Hb]; [left|by right].
    exists q. split; [done|]. split; [done|]. by apply HQ in Hq as [_ ?].
  - intros item' Hin' Hwait'.
    eapply (waiters_unique (items (enqueue txt lang ctx s).2));
      [exact Hnd|exact Hin'| |done|done].
    unfold items. apply elem_of_app.
    destruct Hwhere as [(q & Hq & Hin)|(b & Hf & _ & _ & Hin)].
    + left. by eapply elem_of_open_items.
    + right. rewrite Hf, bind_app. apply elem_of_app. right.
      simpl. by rewrite app_nil_r.
Qed.

(** X11. In every reachable state an open batch has its timer, and when the
    timer fires the whole batch is detached for translation, its texts
    in the order of the first requests, leaving neither queue nor timer
    behind.  No timer is armed without an open batch. *)
Theorem every_open_batch_is_scheduled s :
  reachable s →
  (∀ key q, queues s !! key = Some q →
     q ≠ [] ∧
     ∃ t s',
       timers s !! key = Some t ∧
       getQueueKey (t_lang t) (t_ctx t) = key ∧
       timer_fire key s = Some s' ∧
       queues s' !! key = None ∧ timers s' !! key = None ∧
       flushing s' = flushing s ++
         [mkBatch (t_lang t) (t_ctx t) q (map text q) (config s)])
  ∧
  (∀ key, is_Some (timers s !! key) → is_Some (queues s !! key)).
Proof.
  intros Hreach.
  pose proof (reachable_scheduled s Hreach) as [[HQ HT] _].
  pose proof (reachable_consistent s Hreach) as [_ Htexts].
  split.
  - intros key q Hq. split; [by apply HQ in Hq as [? _]|].
    destruct (timer_fire_outcome key s q (conj HQ HT) Hq) as (t & Ht & Hs').
    eexists t, _. split; [done|]. split; [by apply HT in Ht as [? _]|].
    split; [exact Hs'|]. simpl. rewrite !lookup_delete_eq.
    split; [done|]. split; [done|].
    by rewrite Array_from_Set_NoDup by (by eapply Htexts).
  - intros key [t Ht]. by apply HT in Ht as [_ ?].
Qed.

(** X12. A request that finds the batch of its key open never re-arms its
    timer: the delay runs from the first request of the batch.  The
    timer goes only when the request fills the batch. *)
Theorem timer_runs_from_first_request txt lang ctx s q :
  let key := getQueueKey lang ctx in
  let s' := (enqueue txt lang ctx s).2 in
  reachable s →
  queues s !! key = Some q →
  (timers s' = timers s ∧ is_Some (queues s' !! key) ∧
   flushing s' = flushing s)
  ∨
  ((txt ∉ map text q) ∧
   (batchSize (config s) ≤ Z.of_nat (length q) + 1)%Z ∧
   timers s' !! key = None ∧ queues s' !! key = None).
Proof.
  intros key s' Hreach Hq. subst key s'.
  pose proof (reachable_scheduled s Hreach) as [[HQ _] _].
  destruct (HQ _ _ Hq) as [_ [t Ht]].
  destruct (enqueue_outcomes txt lang ctx s)
    as [(i & x & _ & _ & Hq' & Htm & Hf)
       |[(Hnew & Hle & Hq' & Htm & Hf)|(Hnew & Hlt & Hq' & Htm & Hf)]];
    rewrite ?Hq in *; simpl in *.
  - left. rewrite Hq', lookup_insert_eq. done.
  - right. rewrite Hq', Htm, !lookup_delete_eq. done.
  - left. rewrite Ht in Htm. rewrite Hq', lookup_insert_eq. done.
Qed.

Lemma flush_outcome lang ctx s :
  flush lang ctx s = s ∨
  ∃ q, queues s !! getQueueKey lang ctx = Some q ∧ q ≠ [] ∧
       flush lang ctx s =
       set_flushing
         (fun bs => bs ++ [mkBatch lang ctx q (Array_from_Set (map text q))
                             (config s)])
         (set_queues (delete (getQueueKey lang ctx)) s).
Proof.
  unfold flush.
  destruct (queues s !! getQueueKey lang ctx) as [[|item q]|] eqn:Hq;
    [by left| |by left].
  right. by exists (item :: q).
Qed.

(** X13. A step keeps the open queues shorter than the size threshold,
    unless it changes the threshold; and as long as they are, a batch
    that a step detaches has at most [batchSize] texts (one, if
    [batchSize] is below one). *)
Theorem batch_never_exceeds_threshold s s' :
  step s s' →
  below_threshold s →
  (batchSize (config s') = batchSize (config s) → below_threshold s') ∧
  ∀ b, b ∈ flushing s' →
       b ∈ flushing s ∨
       (Z.of_nat (length (b_queue b)) ≤ Z.max 1 (batchSize (config s)))%Z.
Proof.
  intros Hstep Hbelow. unfold below_threshold in *.
  destruct (step_cases _ _ Hstep)
    as [[(Hq & _ & Hf & _)|(Hq & _ & Hf & _)]
       |[(txt & lang & ctx & ->)|[(key & Hfire)|(i & response & Hres)]]].
  - split; [|intros b; rewrite Hf; by left].
    intros Hbs key q. rewrite Hq, Hbs. apply Hbelow.
  - split; [|intros b; rewrite Hf; by left].
    intros Hbs key q. rewrite Hq, Hbs. apply Hbelow.
  - destruct (enqueue_frame txt lang ctx s) as (_ & _ & Hcfg & _).
    assert ((Z.of_nat (length (default [] (queues s !! getQueueKey lang ctx)))
             < Z.max 1 (batchSize (config s)))%Z) as Hlen.
    { destruct (queues s !! getQueueKey lang ctx) as [q|] eqn:Hq; simpl.
      - apply Hbelow in Hq. lia.
      - lia. }
    destruct (enqueue_outcomes txt lang ctx s)
      as [(i & x & Hi & _ & Hq' & _ & Hf)
         |[(_ & Hle & Hq' & _ & Hf)|(_ & Hlt & Hq' & _ & Hf)]].
    + split; [|intros b; rewrite Hf; by left].
      intros _ key q. rewrite Hq', Hcfg, lookup_insert.
      destruct (decide (getQueueKey lang ctx = key)) as [<-|Hne];
        [|apply Hbelow].
      intros [= <-]. rewrite length_insert.
      eapply Hbelow. by eapply open_queue_default.
    + split.
      * intros _ key q. rewrite Hq', Hcfg.
        intros [_ Hq]%lookup_delete_Some. by eapply Hbelow.
      * intros b. rewrite Hf. intros [Hin|Hin]%elem_of_app; [by left|].
        apply list_elem_of_singleton in Hin as ->. right. simpl.
        rewrite length_app. simpl. lia.
    + split; [|intros b; rewrite Hf; by left].
      intros _ key q. rewrite Hq', Hcfg, lookup_insert.
      destruct (decide (getQueueKey lang ctx = key)) as [<-|Hne];
        [|apply Hbelow].
      intros [= <-]. rewrite length_app. simpl. lia.
  - unfold timer_fire in Hfire. destruct (timers s !! key) as [t|]; [|done].
    injection Hfire as <-.
    destruct (flush_outcome (t_lang t) (t_ctx t) (set_timers (delete key) s))
      as [->|(q & Hq & _ & ->)]; simpl.
    + split; [|intros b; by left]. by intros _.
    + split.
      * intros _ key' q'. simpl.
        intros [_ Hq']%lookup_delete_Some. by eapply Hbelow.
      * intros b [Hin|Hin]%elem_of_app; [by left|].
        apply list_elem_of_singleton in Hin as ->. right. simpl.
        apply Hbelow in Hq. lia.
  - apply flush_resume_frame in Hres
      as (b & Hb & _ & Hcfg & _ & Hq & _ & Hf).
    split.
    + intros _ key q. rewrite Hq, Hcfg. apply Hbelow.
    + intros b' Hin. left. rewrite Hf in Hin.
      by eapply list_elem_of_delete_inv.
Qed.

End Requests.

(** ** Flushes *)

Section Flushes.
Context `{Platform}.

(** What the resumption of a detached batch does: a full case
    analysis over the load, the generator's answer and the write. *)
Lemma flush_resume_cases i b response s :
  flushing s !! i = Some b →
  flush_resume i response s =
  let lang := b_lang b in
  let ctx := b_ctx b in
  let q := b_queue b in
  let key := getCacheKey lang ctx s in
  let path := getCachePath lang ctx s in
  let s0 := set_flushing (delete i) s in
  match loadCache lang ctx s with
  | Waiting => None
  | Thrown e _ => Some (reject_all q e s0)
  | Returned cache _ =>
      let examples :=
        selectExamples (spread cache) (maxExamples (b_config b)) in
      let s2 := emit (EvTranslate (b_uniqueTexts b) lang examples)
                     (set_memCache <[key := cache]> s0) in
      match response with
      | Err e => Some (reject_all q e s2)
      | Ok tr =>
          let merged := Object_assign cache tr in
          if decide (path ∈ locks s) then None
          else
            match atomic_write path (JSON_stringify merged) (disk s) with
            | (Ok _, d) =>
                Some (fold_left (settle_item tr) q
                        (emit (EvPersisted path merged)
                           (set_disk (fun _ => d)
                              (set_memCache <[key := merged]> s2))))
            | (Err e, d) =>
                Some (reject_all q e
                        (set_disk (fun _ => d)
                           (set_memCache <[key := merged]> s2)))
            end
      end
  end.
Proof.
  intros Hb. unfold flush_resume. rewrite Hb, flush_body_cases. cbv zeta.
  rewrite (loadCache_frame (b_lang b) (b_ctx b) s
             (set_flushing (delete i) s) (set_flushing (delete i)))
    by done.
  change (getCacheKey (b_lang b) (b_ctx b) (set_flushing (delete i) s))
    with (getCacheKey (b_lang b) (b_ctx b) s).
  change (getCachePath (b_lang b) (b_ctx b) (set_flushing (delete i) s))
    with (getCachePath (b_lang b) (b_ctx b) s).
  change (locks (set_flushing (delete i) s)) with (locks s).
  change (disk (set_flushing (delete i) s)) with (disk s).
  destruct (loadCache (b_lang b) (b_ctx b) s) as [cache s1|e s1|];
    [|done..].
  destruct response as [tr|e]; [|done].
  destruct (decide _); [done|].
  by destruct (atomic_write _ _ _) as [[[]|e] d].
Qed.


(** X15. A flush settles callers of its own batch only, and leaves the open
    queues, the timers and the other detached batches as they are. *)
Theorem flush_settles_its_own_batch_only i b response s s' :
  reachable s →
  flushing s !! i = Some b →
  flush_resume i response s = Some s' →
  (∀ p, p ∉ concat (map resolve (b_queue b)) →
        promises s' !! p = promises s !! p) ∧
  queues s' = queues s ∧ timers s' = timers s ∧
  flushing s' = delete i (flushing s).
Proof.
  intros Hreach Hb Hres.
  destruct (reachable_batch_ok s i b Hreach Hb) as [[_ Hrej] _].
  apply flush_resume_frame in Hres
    as (b' & Hb' & Hbody & _ & _ & Hq & Ht & Hf).
  assert (b' = b) as -> by congruence.
  apply flush_body_effect in Hbody as (_ & _ & Hp).
  split; [intros p Hnot; by apply Hp|done].
Qed.

(** X16. A flush never throws: whatever fails inside it ends in
    rejections of its callers.  It runs to its end unless the lock of
    its partition is held. *)
Theorem flush_never_throws response b s :
  match flush_body response b s with
  | Returned _ _ => True
  | Thrown _ _ => False
  | Waiting => getCachePath (b_lang b) (b_ctx b) s ∈ locks s
  end.
Proof.
  rewrite flush_body_cases. cbv zeta.
  destruct (loadCache (b_lang b) (b_ctx b) s) as [cache s1|e s1|] eqn:Hload.
  - destruct response as [tr|e]; [|done].
    destruct (decide _); [done|].
    by destruct (atomic_write _ _ _) as [[[]|e] d].
  - done.
  - by apply loadCache_not_waiting in Hload.
Qed.

End Flushes.

(** ** Flushes that fail *)

Lemma waiters_pending_reject item q e ps :
  waiters_disjoint (item :: q) →
  waiters_pending q ps →
  waiters_pending q (settle (reject item) (Rejected e) ps).
Proof.
  intros (_ & Hrej & Hother)%waiters_disjoint_cons Hpend.
  apply Forall_forall. intros item' Hin. apply Forall_forall. intros p Hp.
  rewrite settle_other.
  - eapply Forall_forall in Hpend; [|exact Hin].
    eapply Forall_forall in Hpend; [|exact Hp]. done.
  - intros ->. by eapply Hother.
Qed.

Lemma fold_reject_stable (q : list QueueItem) e ps p x :
  ps !! p = Some x → x ≠ Pending →
  fold_left (fun ps item => settle (reject item) (Rejected e) ps) q ps !! p
    = Some x.
Proof.
  revert ps. induction q as [|item q IH]; intros ps Hp Hx; simpl; [done|].
  apply IH; [|done]. by apply settle_stable.
Qed.

(** The [catch] block rejects the caller that opened each item. *)
Lemma fold_reject_hit (q : list QueueItem) e ps item :
  waiters_disjoint q →
  waiters_pending q ps →
  item ∈ q →
  fold_left (fun ps item => settle (reject item) (Rejected e) ps) q ps
    !! reject item = Some (Rejected e).
Proof.
  revert ps. induction q as [|x q IH]; intros ps Hdis Hpend Hin.
  - by apply elem_of_nil in Hin.
  - simpl. apply elem_of_cons in Hin as [->|Hin].
    + destruct (waiters_disjoint_cons _ _ Hdis) as (_ & Hrej & _).
      apply Forall_cons in Hpend as [Hx _].
      eapply Forall_forall in Hx; [|exact Hrej].
      apply fold_reject_stable; [|done]. by apply settle_hit.
    + apply IH; [by apply waiters_disjoint_cons in Hdis as (? & _)| |done].
      apply Forall_cons in Hpend as [_ Hq].
      by apply waiters_pending_reject.
Qed.

Lemma fold_reject_resolves_nobody (q : list QueueItem) e ps p v :
  fold_left (fun ps item => settle (reject item) (Rejected e) ps) q ps !! p
    = Some (Resolved v) →
  ps !! p = Some (Resolved v).
Proof.
  intros Hp. destruct (ps !! p) as [x|] eqn:Hx.
  - destruct (decide (x = Pending)) as [->|Hne].
    + exfalso. eapply (fold_reject_not_resolved q e ps p); [|exact Hp].
      by apply pending_not_resolved.
    + rewrite (fold_reject_stable q e ps p x Hx Hne) in Hp. done.
  - exfalso. eapply (fold_reject_not_resolved q e ps p); [|exact Hp].
    intros w. by rewrite Hx.
Qed.

Section FailedFlush.
Context `{Platform}.

(** The effect of the [catch] block of [flush] on a batch of a
    reachable state. *)
Lemma reject_all_effect i b e s s0 :
  reachable s →
  flushing s !! i = Some b →
  promises s0 = promises s →
  let s' := reject_all (b_queue b) e s0 in
  (∀ item, item ∈ b_queue b →
           promises s' !! reject item = Some (Rejected e)) ∧
  (∀ p v, promises s' !! p = Some (Resolved v) →
          promises s !! p = Some (Resolved v)) ∧
  config s' = config s0 ∧ memCache s' = memCache s0 ∧ disk s' = disk s0 ∧
  trace s' = trace s0 ++ map (fun item => EvReject (reject item) e) (b_queue b).
Proof.
  intros Hreach Hb Hps s'. subst s'.
  destruct (reachable_batch_ok s i b Hreach Hb) as [Hdis Hpend].
  simpl in Hpend. rewrite <- Hps in Hpend |- *.
  destruct (reject_all_frame (b_queue b) e s0) as (-> & -> & _ & -> & _).
  rewrite promises_reject_all, trace_reject_all.
  split; [intros item Hin; by apply fold_reject_hit|].
  split; [intros p v; apply fold_reject_resolves_nobody|done].
Qed.




End FailedFlush.

(** ** Flushes that succeed *)

Lemma MockProvider_translate_fold texts lang acc t :
  obj_get
    (fold_left (fun result txt =>
                  obj_set result txt ("[" +:+ lang +:+ "] " +:+ txt))
       texts acc) t
  = if decide (t ∈ texts) then Some ("[" +:+ lang +:+ "] " +:+ t)
    else obj_get acc t.
Proof.
  revert acc. induction texts as [|x texts IH]; intros acc; cbn [fold_left].
  - rewrite decide_False; [done|apply not_elem_of_nil].
  - rewrite IH. destruct (decide (t ∈ texts)) as [Hin|Hout].
    + rewrite decide_True; [done|by right].
    + rewrite obj_get_obj_set. destruct (decide (x = t)) as [->|Hne].
      * rewrite decide_True; [done|by left].
      * rewrite decide_False; [done|].
        intros [->|?]%elem_of_cons; done.
Qed.

(** The mock provider answers every text it is given, and no other,
    with the text prefixed by the language in brackets. *)
Lemma MockProvider_translate_lookup texts lang examples t :
  obj_get (MockProvider_translate texts lang examples) t
  = if decide (t ∈ texts) then Some ("[" +:+ lang +:+ "] " +:+ t) else None.
Proof.
  unfold MockProvider_translate. by rewrite MockProvider_translate_fold.
Qed.

Section FlushedAnswers.
Context `{Platform}.



End FlushedAnswers.

(** ** The examples given to the generator *)

Lemma drop_min {A} (l : list A) k :
  drop (Nat.min k (length l)) l = drop k l.
Proof.
  destruct (decide (k ≤ length l)%nat) as [Hle|Hgt].
  - by rewrite Nat.min_l.
  - rewrite Nat.min_r by lia. by rewrite !drop_ge by lia.
Qed.

Lemma take_min {A} (l : list A) k :
  take (Nat.min k (length l)) l = take k l.
Proof.
  destruct (decide (k ≤ length l)%nat) as [Hle|Hgt].
  - by rewrite Nat.min_l.
  - rewrite Nat.min_r by lia. by rewrite !take_ge by lia.
Qed.

Lemma selectExamples_drop cache m :
  ordered_keys cache →
  selectExamples cache m =
  drop (if (m <=? 0)%Z then Z.to_nat (- m) else length cache - Z.to_nat m)
       cache.
Proof.
  intros Hord. unfold selectExamples, Object_entries.
  destruct (Z.leb_spec (Z.of_nat (length cache)) m) as [Hall|Hsome].
  - destruct (Z.leb_spec m 0) as [Hm|Hm].
    + by replace (Z.to_nat (- m)) with 0 by lia.
    + by replace (length cache - Z.to_nat m) with 0 by lia.
  - assert (∀ k, Object_fromEntries (drop k cache) = drop k cache) as Hdrop.
    { intros k. apply (Object_fromEntries_entries (drop k cache)).
      by apply ordered_keys_drop. }
    unfold Array_slice.
    destruct (Z.leb_spec m 0) as [Hm|Hm].
    + destruct (Z.ltb_spec (- m) 0) as [Hneg|_]; [lia|].
      rewrite Hdrop, <- (drop_min cache (Z.to_nat (- m))). f_equal. lia.
    + destruct (Z.ltb_spec (- m) 0) as [_|Hpos]; [|lia].
      rewrite Hdrop. f_equal. lia.
Qed.

(** X22. The selector returns a suffix of the cache, in property order: the
    last [maxExamples] entries for a positive bound, everything for the
    bound [0], and for a negative bound everything but the first
    [-maxExamples] entries. *)
Theorem selectExamples_is_suffix cache m :
  ordered_keys cache →
  ∃ k, selectExamples cache m = drop k cache ∧
       length (selectExamples cache m)
       = if (m <=? 0)%Z then length cache - Z.to_nat (- m)
         else Nat.min (length cache) (Z.to_nat m).
Proof.
  intros Hord. rewrite (selectExamples_drop cache m Hord).
  eexists. split; [done|]. rewrite length_drop.
  destruct (Z.leb_spec m 0); lia.
Qed.

Section PromptFacts.
Variable JSON_stringify_texts : list string → string.

Lemma Array_slice_to_0 {A} (l : list A) n :
  (0 ≤ n)%Z → Array_slice_to l 0 n = take (Z.to_nat n) l.
Proof.
  intros Hn. unfold Array_slice_to.
  change (0 <? 0)%Z with false. cbv iota.
  destruct (Z.ltb_spec n 0) as [Hneg|_]; [lia|].
  rewrite (Z.min_l 0) by lia. change (Z.to_nat 0) with 0. rewrite drop_0.
  rewrite <- (take_min l (Z.to_nat n)). f_equal. lia.
Qed.

(** The prompt depends on the first twenty examples only. *)
Lemma buildPrompt_take texts lang examples :
  buildPrompt JSON_stringify_texts texts lang examples
  = buildPrompt JSON_stringify_texts texts lang (take 20 examples).
Proof.
  unfold buildPrompt, Object_entries.
  rewrite !Array_slice_to_0 by lia.
  change (Z.to_nat 20) with 20. rewrite take_take, Nat.min_id.
  by destruct examples.
Qed.


End PromptFacts.

(** ** Property order and the newest examples *)

Lemma array_index_canonical k n :
  array_index k = Some n → NilZero.string_of_uint (N.to_uint n) = k.
Proof.
  unfold array_index.
  destruct (NilZero.uint_of_string k) as [u|]; [|done].
  destruct (bool_decide _) eqn:Hk; simpl; [|done].
  destruct (bool_decide (_ < _)%N); [|done].
  intros [= <-]. by apply bool_decide_eq_true in Hk.
Qed.

Lemma array_index_inj k k' n :
  array_index k = Some n → array_index k' = Some n → k = k'.
Proof.
  intros Hk Hk'. apply array_index_canonical in Hk, Hk'. congruence.
Qed.

Lemma ordered_keys_snoc o k v :
  ordered_keys o → k ∉ o.*1 → array_index k = None →
  ordered_keys (o ++ [(k, v)]).
Proof.
  intros Hord Hk Hidx. induction o as [|[k' v'] o IH]; simpl in *.
  - split; [apply not_elem_of_nil|]. split; [constructor|done].
  - destruct Hord as (Hk' & Hprec & Hord).
    apply not_elem_of_cons in Hk as [Hne Hk].
    split.
    { rewrite fmap_app. simpl. intros [Hin|Hin]%elem_of_app; [done|].
      apply list_elem_of_singleton in Hin. congruence. }
    split; [|by apply IH].
    apply Forall_app. split; [done|]. apply Forall_singleton.
    unfold key_precedes. simpl. rewrite Hidx. by destruct (array_index k').
Qed.

(** An array index is inserted before every entry that is not one. *)
Lemma drop_insert_index idx k v o j :
  Forall (fun kv => array_index kv.1 = None) (drop j o) →
  drop (S j) (insert_index idx k v o) = drop j o.
Proof.
  revert j. induction o as [|[k' v'] o IH]; intros j Hnon; simpl.
  - by rewrite !drop_nil.
  - destruct (array_index k') as [n'|] eqn:Hk'; [|done].
    destruct j as [|j].
    { simpl in Hnon. apply Forall_cons in Hnon as [Hhead _].
      simpl in Hhead. congruence. }
    destruct (n' <? idx)%N; [|done].
    simpl. apply IH. exact Hnon.
Qed.

Lemma Forall_insert_index (P : string * string → Prop) idx k v o :
  P (k, v) → Forall P o → Forall P (insert_index idx k v o).
Proof.
  intros Hk Ho. induction o as [|[k' v'] o IH]; simpl.
  - by apply Forall_singleton.
  - apply Forall_cons in Ho as [Hhead Ho].
    destruct (array_index k') as [n'|].
    + destruct (n' <? idx)%N.
      * apply Forall_cons. split; [done|by apply IH].
      * apply Forall_cons. split; [done|]. by apply Forall_cons.
    + apply Forall_cons. split; [done|]. by apply Forall_cons.
Qed.

Lemma keys_insert_index idx k v o k' :
  k' ∈ (insert_index idx k v o).*1 → k' = k ∨ k' ∈ o.*1.
Proof.
  induction o as [|[k0 v0] o IH]; simpl.
  - intros Hin%list_elem_of_singleton. by left.
  - destruct (array_index k0) as [n0|].
    + destruct (n0 <? idx)%N; simpl.
      * intros [->|Hin]%elem_of_cons; [right; by left|].
        destruct (IH Hin) as [->|Hin']; [by left|right; by right].
      * intros [->|Hin]%elem_of_cons; [by left|by right].
    + simpl. intros [->|Hin]%elem_of_cons; [by left|by right].
Qed.

Lemma ordered_keys_insert_index idx k v o :
  ordered_keys o → k ∉ o.*1 → array_index k = Some idx →
  ordered_keys (insert_index idx k v o).
Proof.
  intros Hord Hk Hidx. induction o as [|[k' v'] o IH]; simpl in *.
  - split; [apply not_elem_of_nil|]. split; [constructor|done].
  - destruct Hord as (Hk' & Hprec & Hord).
    apply not_elem_of_cons in Hk as [Hne Hk].
    destruct (array_index k') as [n'|] eqn:Hidx'.
    + destruct (N.ltb_spec n' idx) as [Hlt|Hge].
      * simpl. split.
        { intros [->|Hin]%keys_insert_index; done. }
        split; [|by apply IH].
        apply Forall_insert_index; [|done].
        unfold key_precedes. simpl. by rewrite Hidx', Hidx.
      * assert (idx < n')%N as Hlt.
        { destruct (decide (idx = n')) as [->|]; [|lia].
          destruct Hne. by eapply array_index_inj. }
        simpl. split.
        { intros [->|Hin]%elem_of_cons; done. }
        split; [|done].
        apply Forall_cons. split.
        { unfold key_precedes. simpl. by rewrite Hidx', Hidx. }
        eapply Forall_impl; [exact Hprec|].
        intros [k0 v0]. unfold key_precedes. simpl. rewrite Hidx', Hidx.
        destruct (array_index k0); [lia|done].
    + simpl. split.
      { intros [->|Hin]%elem_of_cons; done. }
      split; [|done].
      apply Forall_cons. split.
      { unfold key_precedes. simpl. by rewrite Hidx', Hidx. }
      eapply Forall_impl; [exact Hprec|].
      intros [k0 v0]. unfold key_precedes. simpl. rewrite Hidx', Hidx.
      by destruct (array_index k0).
Qed.

Lemma obj_get_drop_None (o : JSRecord) k j :
  obj_get o k = None → obj_get (drop j o) k = None.
Proof.
  rewrite !obj_get_None. intros Hk Hin. apply Hk.
  apply list_elem_of_fmap in Hin as (kv & -> & Hin).
  apply list_elem_of_fmap. exists kv. split; [done|].
  apply list_elem_of_lookup in Hin as [i Hi]. rewrite lookup_drop in Hi.
  by eapply list_elem_of_lookup_2.
Qed.


(** X25. A text that is the canonical form of an array index (such as
    [404]) is enumerated before every other kind of key, however late
    it is cached: when the last [maxExamples] entries of the partition
    are not array indices, a newly cached text of that kind is not
    among the selected examples. *)
Theorem index_like_text_is_not_selected cache k v m idx :
  ordered_keys cache →
  obj_get cache k = None →
  array_index k = Some idx →
  (0 < m ≤ Z.of_nat (length cache))%Z →
  Forall (fun kv => array_index kv.1 = None)
         (drop (length cache - Z.to_nat m) cache) →
  obj_get (selectExamples (obj_set cache k v) m) k = None ∧
  selectExamples (obj_set cache k v) m = selectExamples cache m.
Proof.
  intros Hord Hk Hidx Hm Hnon.
  assert (obj_set cache k v = insert_index idx k v cache) as Hset.
  { unfold obj_set, own_insert. by rewrite Hk, Hidx. }
  assert (length (insert_index idx k v cache) = S (length cache)) as Hlen.
  { clear. induction cache as [|[k' v'] o IH]; simpl; [done|].
    destruct (array_index k'); [|done].
    destruct (_ <? _)%N; simpl; by rewrite ?IH. }
  assert (selectExamples (obj_set cache k v) m = selectExamples cache m)
    as Hsame.
  { rewrite Hset.
    rewrite selectExamples_drop
      by (apply ordered_keys_insert_index; [done| |done];
          by apply obj_get_None).
    rewrite (selectExamples_drop cache m Hord).
    destruct (Z.leb_spec m 0) as [|_]; [lia|].
    rewrite Hlen.
    replace (S (length cache) - Z.to_nat m)
      with (S (length cache - Z.to_nat m)) by lia.
    by apply drop_insert_index. }
  split; [|done]. rewrite Hsame, (selectExamples_drop cache m Hord).
  by apply obj_get_drop_None.
Qed.

(** ** Concrete executions, continued *)

Section MoreConcrete.
#[local] Existing Instance MemPlatform.

Lemma reachable_hello_flushed : reachable hello_flushed.
Proof. apply reachable_enqueue, reachable_with_batchSize, reachable_fresh. Qed.

Lemma reachable_pair_flushed : reachable pair_flushed.
Proof.
  do 2 apply reachable_enqueue. apply reachable_with_batchSize, reachable_fresh.
Qed.

Lemma reachable_hello_once : reachable hello_once.
Proof. apply reachable_enqueue, reachable_loaded. Qed.

Lemma put_leaves_other_texts_witness :
  on_return (setCached "Hello" "Bonjour" "fr" "default" bye_cached)
    (fun _ s' =>
       getCached "Bye" "fr" "default" s' = Returned (Some "Au revoir") s').
Proof.
  assert (on_return (setCached "Hello" "Bonjour" "fr" "default" bye_cached)
            (fun _ _ => True)) as Hok by (vm_compute; exact I).
  destruct (setCached "Hello" "Bonjour" "fr" "default" bye_cached)
    as [[] s'| |] eqn:Hput; [|destruct Hok..].
  apply (put_leaves_other_texts "Hello" "Bonjour" "fr" "default" bye_cached s'
           "Bye" (Some "Au revoir") bye_cached); [exact Hput| |done].
  apply (getCached_hit "Bye" "fr" "default" bye_cached [("Bye", "Au revoir")]).
  reflexivity.
Defined.


Lemma unloadable_partition_is_left_alone_witness :
  on_throw (loadCache "fr" "default" fresh_corrupt) (fun e _ =>
    setCached "Hello" "Bonjour" "fr" "default" fresh_corrupt
      = Thrown e fresh_corrupt ∧
    t8 "Hello" "fr" "default" fresh_corrupt = Thrown e fresh_corrupt).
Proof.
  assert (on_throw (loadCache "fr" "default" fresh_corrupt) (fun _ _ => True))
    as Hok by (vm_compute; exact I).
  destruct (loadCache "fr" "default" fresh_corrupt)
    as [|e s1|] eqn:Hload; [destruct Hok| |destruct Hok].
  destruct (unloadable_partition_is_left_alone "fr" "default" fresh_corrupt
              e s1 Hload) as (_ & _ & Hput & _ & Ht8).
  - apply not_elem_of_empty.
  - split; [apply Hput|apply Ht8].
Defined.

Lemma write_releases_lock_witness :
  ∃ s', completes_in (setCached "Hello" "Bonjour" "fr" "default"
                        fresh_read_only) s' ∧
        locks s' = locks fresh_read_only.
Proof.
  destruct (write_releases_lock "fr" "default" fresh_read_only) as [Hput _].
  - apply not_elem_of_empty.
  - apply Hput.
Defined.


Lemma loaded_partition_answers_from_memory_witness :
  on_return (getCached "Hello" "fr" "default" fresh) (fun r s1 =>
    r = None ∧
    getCached "Hello" "fr" "default" (set_disk (fun _ => edited_store) s1)
    = Returned r (set_disk (fun _ => edited_store) s1)).
Proof.
  assert (on_return (getCached "Hello" "fr" "default" fresh)
            (fun r _ => r = None)) as Hok by (vm_compute; reflexivity).
  destruct (getCached "Hello" "fr" "default" fresh)
    as [r s1| |] eqn:Hget; [|destruct Hok..].
  split; [exact Hok|].
  exact (loaded_partition_answers_from_memory "Hello" "fr" "default" fresh r s1
           edited_store Hget).
Defined.

Lemma write_leaves_other_partitions_witness :
  on_return (setCached "Bye" "Salut" "fr" "default" two_partitions)
    (fun _ s' =>
       getCached "Bye" "de" "default" s'
       = Returned (Some "Auf Wiedersehen") s').
Proof.
  assert (on_return (setCached "Bye" "Salut" "fr" "default" two_partitions)
            (fun _ _ => True)) as Hok by (vm_compute; exact I).
  destruct (setCached "Bye" "Salut" "fr" "default" two_partitions)
    as [[] s'| |] eqn:Hput; [|destruct Hok..].
  apply (write_leaves_other_partitions "fr" "default" "de" "default"
           two_partitions s' [("Bye", "Auf Wiedersehen")]).
  - vm_compute. discriminate.
  - reflexivity.
  - left. exists "Bye", "Salut". by rewrite Hput.
Defined.

Lemma failed_write_keeps_the_file_witness :
  on_throw (setCached "Hello" "Bonjour" "fr" "default" fresh_locked)
    (fun _ s' =>
       fs_readFile (disk s') "./locales/fr/default.json"
       = Ok (flat_stringify [("Bye", "Au revoir")])).
Proof.
  assert (on_throw (setCached "Hello" "Bonjour" "fr" "default" fresh_locked)
            (fun _ _ => True))
    as Hok by (vm_compute; exact I).
  destruct (setCached "Hello" "Bonjour" "fr" "default" fresh_locked)
    as [|e s'|] eqn:Hput; [destruct Hok| |destruct Hok].
  simpl.
  transitivity (fs_readFile (disk fresh_locked)
                  (getCachePath "fr" "default" fresh_locked));
    [|reflexivity].
  apply (failed_write_keeps_the_file "fr" "default" fresh_locked e s').
  - intros d0 dir r d1. simpl. unfold mem_mkdir.
    by destruct (read_only d0); intros [= _ <-].
  - intros d0 p c r d1. simpl. unfold mem_writeFile, mem_readFile.
    destruct (read_only d0); intros [= _ <-] Hp; [done|].
    simpl. by rewrite lookup_insert_ne.
  - intros d0 from e0 d1. simpl. unfold mem_rename.
    destruct (read_only d0); [by intros [= _ <-]|].
    by destruct (files d0 !! from); [|intros [= _ <-]].
  - left. by exists "Hello", "Bonjour".
Defined.

Lemma request_is_registered_witness :
  promises hello_once !! 0 = Some Pending ∧
  ∃ item q, text item = "Hello" ∧ 0 ∈ resolve item ∧
            queues hello_once !! "fr:default" = Some q ∧ item ∈ q ∧
            is_Some (timers hello_once !! "fr:default").
Proof.
  destruct (request_is_registered "Hello" "fr" "default" loaded
              reachable_loaded)
    as (Hpending & item & Htext & Hwait & Hwhere & _).
  split; [exact Hpending|].
  destruct Hwhere as [(q & Hq & Hin & Htimer)|(b & Hf & _)].
  - by exists item, q.
  - vm_compute in Hf. by destruct (app_cons_not_nil [] [] b).
Defined.

Lemma every_open_batch_is_scheduled_witness :
  ∃ t s',
    timers hello_twice !! "fr:default" = Some t ∧
    timer_fire "fr:default" hello_twice = Some s' ∧
    queues s' !! "fr:default" = None ∧
    flushing s' = [mkBatch (t_lang t) (t_ctx t) [mkItem "Hello" [0; 1] 0]
                     ["Hello"] (config hello_twice)].
Proof.
  destruct (every_open_batch_is_scheduled hello_twice) as [Hopen _].
  - do 2 apply reachable_enqueue. apply reachable_loaded.
  - destruct (Hopen "fr:default" [mkItem "Hello" [0; 1] 0] eq_refl)
      as (_ & t & s' & Ht & _ & Hfire & Hq & _ & Hf).
    by exists t, s'.
Defined.

Lemma timer_runs_from_first_request_witness :
  timers (enqueue "Bye" "fr" "default" hello_once).2 = timers hello_once.
Proof.
  destruct (timer_runs_from_first_request "Bye" "fr" "default" hello_once
              [mkItem "Hello" [0] 0] reachable_hello_once eq_refl)
    as [(Htimers & _)|(_ & Hfull & _)].
  - exact Htimers.
  - vm_compute in Hfull. by destruct Hfull.
Defined.

Lemma batch_never_exceeds_threshold_witness :
  Forall (fun b => (length (b_queue b) ≤ 1)%nat) (flushing hello_flushed).
Proof.
  apply Forall_forall. intros b Hin.
  destruct (batch_never_exceeds_threshold (with_batchSize 1 fresh)
              hello_flushed) as [_ Hbatches].
  - apply step_enqueue.
  - intros key q Hq.
    exact (False_ind _ (lookup_empty_Some (M := gmap string) key q Hq)).
  - destruct (Hbatches b Hin) as [Hold|Hlen].
    + by apply elem_of_nil in Hold.
    + simpl in Hlen. lia.
Defined.


Lemma flush_settles_its_own_batch_only_witness :
  match flush_resume 0 (Ok [("Hello", "Bonjour")])
          (enqueue "Later" "fr" "default" hello_flushed).2 with
  | Some s' =>
      promises s' !! 1 = Some Pending ∧
      flushing s' = [mkBatch "fr" "default" [mkItem "Later" [1] 1] ["Later"]
                       (config hello_flushed)]
  | None => False
  end.
Proof.
  assert (match flush_resume 0 (Ok [("Hello", "Bonjour")])
                  (enqueue "Later" "fr" "default" hello_flushed).2 with
          | Some _ => True
          | None => False
          end) as Hok by (vm_compute; exact I).
  destruct (flush_resume 0 (Ok [("Hello", "Bonjour")])
              (enqueue "Later" "fr" "default" hello_flushed).2)
    as [s'|] eqn:Hres; [|done].
  destruct (flush_settles_its_own_batch_only 0 hello_batch
              (Ok [("Hello", "Bonjour")])
              (enqueue "Later" "fr" "default" hello_flushed).2 s')
    as (Hother & _ & _ & Hf).
  - apply reachable_enqueue, reachable_hello_flushed.
  - reflexivity.
  - exact Hres.
  - split; [|rewrite Hf; reflexivity]. rewrite Hother; [reflexivity|].
    simpl. apply not_elem_of_cons. split; [done|apply not_elem_of_nil].
Defined.






Lemma ordered_three_pairs : ordered_keys three_pairs.
Proof.
  repeat split;
    repeat (apply not_elem_of_cons; split; [done|]);
    try apply not_elem_of_nil; by repeat constructor.
Qed.

Lemma selectExamples_is_suffix_witness :
  ∃ k, selectExamples three_pairs 2 = drop k three_pairs ∧
       length (selectExamples three_pairs 2) = 2.
Proof.
  apply (selectExamples_is_suffix three_pairs 2), ordered_three_pairs.
Defined.



Lemma index_like_text_is_not_selected_witness :
  obj_get (selectExamples (obj_set three_pairs "404" "Introuvable") 2) "404"
  = None.
Proof.
  apply (index_like_text_is_not_selected three_pairs "404" "Introuvable" 2
           404%N);
    [apply ordered_three_pairs|reflexivity|reflexivity|simpl; lia|].
  by repeat constructor.
Defined.

End MoreConcrete.
